(** * The phenotype trie of pheno_happiness/main.c

    A prefix tree whose sibling sets are AVL trees keyed by one [char],
    and whose terminal nodes own a [Phenotype] record.  The C code works
    on exclusively owned heap nodes reached through pointers; ownership is
    strictly hierarchical (no sharing, no back pointers), so a heap node is
    modelled by the value it holds and a [NULL] pointer by a constructor
    or [None].  An in-place write through a pointer becomes the rebuilt
    value along the path that reaches it.

    - A [char] is its integer value (a [Z]); comparisons are the C
      comparisons on that value, whatever the signedness of [char].
    - A key ([const char *]) is the list of chars before the terminating
      NUL; the loop [for (i = 0; key[i] != '\0'; ++i)] is recursion on
      that list.
    - [uint64_t visits] is a [Z] with the wrap-around of [++] written out.
    - A dereference of a NULL pointer is the result [None] of a function
      into [option]; [malloc] is taken to succeed (on failure the program
      exits). *)

From Stdlib Require Import ZArith List Lia String Bool Sorted.
From Stdlib Require Import Floats.PrimFloat.
Import ListNotations.
Local Open Scope Z_scope.

(** ** Domain types *)

(** [QualFlags]: a bit set held in an enum. *)
Definition QualFlags := Z.
Definition QUAL_NONE : QualFlags := 0.
Definition QUAL_RESILIENT : QualFlags := Z.shiftl 1 0.
Definition QUAL_CREATIVE : QualFlags := Z.shiftl 1 1.
Definition QUAL_ANXIOUS : QualFlags := Z.shiftl 1 2.
Definition QUAL_OPTIMIST : QualFlags := Z.shiftl 1 3.

Record Phenotype : Type := mkPhenotype {
  score : float;
  visits : Z;
  qual : QualFlags;
  meta : option string
}.

(** [struct AVLChild], with [NULL] for the null pointer.  The stored
    [child] is never null: the only caller of [avl_insert_child] passes
    the result of [trie_node_new]. *)
Inductive AVLChild (T : Type) : Type :=
| NULL : AVLChild T
| ANode (key : Z) (child : T) (height : Z) (left right : AVLChild T) : AVLChild T.
Arguments NULL {T}.
Arguments ANode {T} key child height left right.

#[warnings="-register-all"]
Inductive TrieNode : Type :=
| mkTrieNode (terminal : Z) (p : option Phenotype) (children : AVLChild TrieNode).

Definition terminal (n : TrieNode) : Z := let '(mkTrieNode t _ _) := n in t.
Definition p (n : TrieNode) : option Phenotype := let '(mkTrieNode _ q _) := n in q.
Definition children (n : TrieNode) : AVLChild TrieNode := let '(mkTrieNode _ _ c) := n in c.

(** ** Failure of a dereference *)

Definition bind {A B : Type} (m : option A) (k : A -> option B) : option B :=
  match m with
  | Some a => k a
  | None => None
  end.

Notation "x <- m ;; k" := (bind m (fun x => k))
  (at level 61, m at next level, right associativity).
Notation "' pat <- m ;; k" := (bind m (fun x => match x with pat => k end))
  (at level 61, pat pattern, m at next level, right associativity).

(** ** AVL child sets *)

Section AVL.
Context {T : Type}.

Definition max (a b : Z) : Z := if a >? b then a else b.

Definition height_avl (n : AVLChild T) : Z :=
  match n with
  | NULL => 0
  | ANode _ _ h _ _ => h
  end.

Definition update_height (n : AVLChild T) : AVLChild T :=
  match n with
  | NULL => NULL
  | ANode k c _ l r => ANode k c (1 + max (height_avl l) (height_avl r)) l r
  end.

Definition balance_factor (n : AVLChild T) : Z :=
  match n with
  | NULL => 0
  | ANode _ _ _ l r => height_avl l - height_avl r
  end.

(** [n->key] *)
Definition key_of (n : AVLChild T) : option Z :=
  match n with
  | NULL => None
  | ANode k _ _ _ _ => Some k
  end.

(** [n->child] *)
Definition child_of (n : AVLChild T) : option T :=
  match n with
  | NULL => None
  | ANode _ c _ _ _ => Some c
  end.

(** [n->left] and [n->right] *)
Definition left_of (n : AVLChild T) : option (AVLChild T) :=
  match n with
  | NULL => None
  | ANode _ _ _ l _ => Some l
  end.

Definition right_of (n : AVLChild T) : option (AVLChild T) :=
  match n with
  | NULL => None
  | ANode _ _ _ _ r => Some r
  end.

Definition rotate_right (y : AVLChild T) : option (AVLChild T) :=
  match y with
  | ANode yk yc yh (ANode xk xc xh xl T2) yr =>
      let y' := update_height (ANode yk yc yh T2 yr) in
      Some (update_height (ANode xk xc xh xl y'))
  | _ => None
  end.

Definition rotate_left (x : AVLChild T) : option (AVLChild T) :=
  match x with
  | ANode xk xc xh xl (ANode yk yc yh T2 yr) =>
      let x' := update_height (ANode xk xc xh xl T2) in
      Some (update_height (ANode yk yc yh x' yr))
  | _ => None
  end.

(** Lines 77-84 of [avl_insert_child]: the height update and the four
    rotation tests, on the node whose subtree has just been replaced.
    [&&] evaluates [root->left->key] only when the test on [bf] holds. *)
Definition rebalance (root : AVLChild T) (key : Z) : option (AVLChild T) :=
  let root := update_height root in
  let bf := balance_factor root in
  ll <- (if bf >? 1 then l <- left_of root ;; lk <- key_of l ;; Some (key <? lk)
         else Some false) ;;
  if ll then rotate_right root else
  rr <- (if bf <? -1 then r <- right_of root ;; rk <- key_of r ;; Some (key >? rk)
         else Some false) ;;
  if rr then rotate_left root else
  lr <- (if bf >? 1 then l <- left_of root ;; lk <- key_of l ;; Some (key >? lk)
         else Some false) ;;
  if lr then
    match root with
    | ANode k c h l r => l' <- rotate_left l ;; rotate_right (ANode k c h l' r)
    | NULL => None
    end
  else
  rl <- (if bf <? -1 then r <- right_of root ;; rk <- key_of r ;; Some (key <? rk)
         else Some false) ;;
  if rl then
    match root with
    | ANode k c h l r => r' <- rotate_right r ;; rotate_left (ANode k c h l r')
    | NULL => None
    end
  else Some root.

Fixpoint avl_insert_child (root : AVLChild T) (key : Z) (child : T)
  : option (AVLChild T) :=
  match root with
  | NULL => Some (ANode key child 1 NULL NULL)
  | ANode rk rc rh rl rr =>
      if key <? rk then
        l' <- avl_insert_child rl key child ;;
        rebalance (ANode rk rc rh l' rr) key
      else if key >? rk then
        r' <- avl_insert_child rr key child ;;
        rebalance (ANode rk rc rh rl r') key
      else Some (ANode rk child rh rl rr)
  end.

(** The pointer returned is the subtree rooted at the entry found. *)
Fixpoint avl_find_child (root : AVLChild T) (key : Z) : AVLChild T :=
  match root with
  | NULL => NULL
  | ANode rk _ _ l r =>
      if key =? rk then root
      else avl_find_child (if key <? rk then l else r) key
  end.

(** [avl_inorder]: the visitor [fn] reads and writes the context behind
    [ctx]; here it maps the context before the call to the one after. *)
Definition avl_inorder {S : Type} (fn : Z -> T -> S -> S)
  : AVLChild T -> S -> S :=
  fix go (root : AVLChild T) (ctx : S) : S :=
    match root with
    | NULL => ctx
    | ANode k c _ l r => go r (fn k c (go l ctx))
    end.

(** The trie code changes the node behind [ac->child] in place, [ac]
    being what [avl_find_child] returned for [key].  On values the changed
    node is put back at that entry; keys, heights and shape stay. *)
Fixpoint avl_write_back (root : AVLChild T) (key : Z) (c : T) : AVLChild T :=
  match root with
  | NULL => NULL
  | ANode rk rc rh l r =>
      if key =? rk then ANode rk c rh l r
      else if key <? rk then ANode rk rc rh (avl_write_back l key c) r
      else ANode rk rc rh l (avl_write_back r key c)
  end.

End AVL.

(** ** Trie and phenotype *)

Definition trie_node_new : TrieNode := mkTrieNode 0 None NULL.

(** A copy of the text, or NULL for NULL (the copy is taken to succeed). *)
Definition my_strdup (s : option string) : option string :=
  match s with
  | None => None
  | Some txt => Some txt
  end.

Definition phenotype_new (sc : float) (q : QualFlags) (m : option string)
  : Phenotype :=
  mkPhenotype sc 0 q (match m with Some _ => my_strdup m | None => None end).

(** Lines 137-142 of [patrie_insert]: find the entry of [ch] and, when
    there is none, insert a new node and find again.  The result is the
    child set and the pointer [ac]. *)
Definition insert_or_get (cs : AVLChild TrieNode) (ch : Z)
  : option (AVLChild TrieNode * AVLChild TrieNode) :=
  match avl_find_child cs ch with
  | NULL =>
      let newnode := trie_node_new in
      cs' <- avl_insert_child cs ch newnode ;;
      Some (cs', avl_find_child cs' ch)
  | ANode _ _ _ _ _ as ac => Some (cs, ac)
  end.

(** Lines 145-152 of [patrie_insert], on the node [cur] the walk ended at. *)
Definition store_phenotype (cur : TrieNode) (sc : float) (q : QualFlags)
  (m : option string) : TrieNode :=
  let '(mkTrieNode _ ph cs) := cur in
  match ph with
  | None => mkTrieNode 1 (Some (phenotype_new sc q m)) cs
  | Some old =>
      mkTrieNode 1
        (Some (mkPhenotype sc (visits old) q
                 (match m with Some _ => my_strdup m | None => None end)))
        cs
  end.

Fixpoint patrie_insert (root : TrieNode) (key : list Z) (sc : float)
  (q : QualFlags) (m : option string) : option TrieNode :=
  match key with
  | [] => Some (store_phenotype root sc q m)
  | ch :: rest =>
      let '(mkTrieNode t ph cs) := root in
      '(cs', ac) <- insert_or_get cs ch ;;
      cur <- child_of ac ;;
      cur' <- patrie_insert cur rest sc q m ;;
      Some (mkTrieNode t ph (avl_write_back cs' ch cur'))
  end.

(** [cur->p->visits++] on a [uint64_t]. *)
Definition visit (ph : Phenotype) : Phenotype :=
  mkPhenotype (score ph) ((visits ph + 1) mod 2 ^ 64) (qual ph) (meta ph).

(** The result is the returned pointer (the payload it points to, or
    [None] for NULL) and the trie after the call; the outer [None] is a
    dereference of a NULL payload. *)
Fixpoint patrie_lookup (root : TrieNode) (key : list Z)
  : option (option Phenotype * TrieNode) :=
  match key with
  | [] =>
      let '(mkTrieNode t ph cs) := root in
      if t =? 0 then Some (None, root)
      else
        old <- ph ;;
        Some (Some (visit old), mkTrieNode t (Some (visit old)) cs)
  | ch :: rest =>
      let '(mkTrieNode t ph cs) := root in
      match avl_find_child cs ch with
      | NULL => Some (None, root)
      | ANode _ cur _ _ _ =>
          '(res, cur') <- patrie_lookup cur rest ;;
          Some (res, mkTrieNode t ph (avl_write_back cs ch cur'))
      end
  end.

(** ** Enumeration *)

(** [EnumCtx]: [buf] holds the [len] chars written so far (capacity and
    reallocation are not modelled); [calls] records the invocations of the
    callback [cb], each with the token passed and the payload pointed to. *)
Record EnumCtx : Type := mkEnumCtx {
  buf : list Z;
  calls : list (list Z * option Phenotype)
}.

(** [visit_tmp_fn] and [trie_dfs] call each other; the visitor takes the
    walk it calls as its first argument.  [e->buf[e->len++] = key] appends
    to the chars written, [e->len--] drops the last. *)
Definition visit_tmp_fn (trie_dfs : TrieNode -> EnumCtx -> EnumCtx)
  (key : Z) (child : TrieNode) (e : EnumCtx) : EnumCtx :=
  let e1 := mkEnumCtx (buf e ++ [key]) (calls e) in
  let e2 := trie_dfs child e1 in
  mkEnumCtx (removelast (buf e2)) (calls e2).

Fixpoint trie_dfs (node : TrieNode) (ec : EnumCtx) : EnumCtx :=
  let '(mkTrieNode t ph cs) := node in
  let ec1 := if t =? 0 then ec
             else mkEnumCtx (buf ec) (calls ec ++ [(buf ec, ph)]) in
  avl_inorder (visit_tmp_fn trie_dfs) cs ec1.

Definition patrie_enumerate (root : TrieNode)
  : list (list Z * option Phenotype) :=
  calls (trie_dfs root (mkEnumCtx [] [])).

(** ** Sequences of operations on one trie *)

Inductive Op : Type :=
| OpInsert (key : list Z) (sc : float) (q : QualFlags) (m : option string)
| OpLookup (key : list Z)
| OpEnumerate.

Definition run_op (t : TrieNode) (o : Op) : option TrieNode :=
  match o with
  | OpInsert key sc q m => patrie_insert t key sc q m
  | OpLookup key => '(_, t') <- patrie_lookup t key ;; Some t'
  | OpEnumerate => Some t
  end.

Fixpoint run_ops (t : TrieNode) (ops : list Op) : option TrieNode :=
  match ops with
  | [] => Some t
  | o :: rest => t' <- run_op t o ;; run_ops t' rest
  end.

Definition key_of_string (s : string) : list Z :=
  map (fun a => Z.of_N (Ascii.N_of_ascii a)) (list_ascii_of_string s).

(** * Vocabulary of the properties

    What the statements below are written with: the in-order sequence of
    a child set and the list operations it is compared with, heights and
    balance, predicates over every node, what a key leads to, the order on
    keys, and the examples the statements are run on. *)

Section EntryLists.
Context {T : Type}.

Fixpoint assoc (k : Z) (es : list (Z * T)) : option T :=
  match es with
  | [] => None
  | (k', c) :: es' => if k =? k' then Some c else assoc k es'
  end.

Fixpoint ins_entry (k : Z) (c : T) (es : list (Z * T)) : list (Z * T) :=
  match es with
  | [] => [(k, c)]
  | (k', c') :: es' =>
      if k <? k' then (k, c) :: es
      else if k >? k' then (k', c') :: ins_entry k c es'
      else (k', c) :: es'
  end.

Fixpoint upd_entry (k : Z) (c : T) (es : list (Z * T)) : list (Z * T) :=
  match es with
  | [] => []
  | (k', c') :: es' =>
      if k =? k' then (k', c) :: es' else (k', c') :: upd_entry k c es'
  end.

Definition sorted_keys (es : list (Z * T)) : Prop :=
  StronglySorted Z.lt (map fst es).

End EntryLists.

Section ChildSetMeasures.
Context {T : Type}.
Implicit Types (t l r : AVLChild T) (k : Z) (c : T).

(** The (key, child) pairs in the order [avl_inorder] visits them. *)
Definition entries t : list (Z * T) :=
  avl_inorder (fun k c acc => acc ++ [(k, c)]) t [].

Definition keys t : list Z := map fst (entries t).

(** In-order traversal is strictly ascending. *)
Definition bst t : Prop := sorted_keys (entries t).

(** The height of the tree as it is, against the cached [height] field. *)
Fixpoint ht t : Z :=
  match t with
  | NULL => 0
  | ANode _ _ _ l r => 1 + Z.max (ht l) (ht r)
  end.

Fixpoint heights_ok t : Prop :=
  match t with
  | NULL => True
  | ANode _ _ h l r => h = 1 + Z.max (ht l) (ht r) /\ heights_ok l /\ heights_ok r
  end.

Fixpoint balanced t : Prop :=
  match t with
  | NULL => True
  | ANode _ _ _ l r => -1 <= ht l - ht r <= 1 /\ balanced l /\ balanced r
  end.

Definition avl_ok t : Prop := bst t /\ heights_ok t /\ balanced t.

(** The subtree whose root is taller on the side [k] went to. *)
Definition grew k t : Prop :=
  match t with
  | NULL => False
  | ANode k' _ _ l r =>
      (k < k' /\ ht l = ht r + 1) \/ (k > k' /\ ht r = ht l + 1)
  end.

(** [balance_factor], which reads the cached heights, is within bounds
    at every subtree. *)
Fixpoint bf_bounded t : Prop :=
  match t with
  | NULL => True
  | ANode _ _ _ l r =>
      -1 <= balance_factor t <= 1 /\ bf_bounded l /\ bf_bounded r
  end.

End ChildSetMeasures.

Section AvlAll.
Context {T : Type}.
Variable P : T -> Prop.

Fixpoint avl_all (t : AVLChild T) : Prop :=
  match t with
  | NULL => True
  | ANode _ c _ l r => P c /\ avl_all l /\ avl_all r
  end.

End AvlAll.

(** [P] holds of [n] and of every node below it. *)
Fixpoint trie_forall (P : TrieNode -> Prop) (n : TrieNode) : Prop :=
  P n /\ avl_all (trie_forall P) (children n).

(** What holds of every node of a trie the operations have built: its
    child set is an AVL tree, and it has a payload exactly when it is
    marked terminal. *)
Definition node_ok (n : TrieNode) : Prop :=
  avl_ok (children n) /\ (terminal n <> 0 <-> p n <> None).

Definition trie_wf (n : TrieNode) : Prop := trie_forall node_ok n.

(** The node the walk of [patrie_lookup] ends at, if no child is missing. *)
Fixpoint node_at (n : TrieNode) (key : list Z) : option TrieNode :=
  match key with
  | [] => Some n
  | ch :: rest =>
      match avl_find_child (children n) ch with
      | NULL => None
      | ANode _ c _ _ _ => node_at c rest
      end
  end.

(** The terminal mark and the payload a key leads to. *)
Definition obs (n : TrieNode) (key : list Z) : Z * option Phenotype :=
  match node_at n key with
  | Some m => (terminal m, p m)
  | None => (0, None)
  end.

Definition visits_of (ph : option Phenotype) : Z :=
  match ph with
  | Some x => visits x
  | None => 0
  end.

Definition inserted_keys (ops : list Op) : list (list Z) :=
  flat_map (fun o => match o with
                     | OpInsert key _ _ _ => [key]
                     | _ => []
                     end) ops.

Definition list_eq_dec_Z : forall a b : list Z, {a = b} + {a <> b} :=
  list_eq_dec Z.eq_dec.

(** Lexicographic order on keys, a proper prefix first; symbols compare
    as the child sets compare them. *)
Fixpoint lex_ltb (a b : list Z) : bool :=
  match a, b with
  | _, [] => false
  | [], _ :: _ => true
  | x :: a', y :: b' => (x <? y) || ((x =? y) && lex_ltb a' b')
  end.

Definition lex_lt (a b : list Z) : Prop := lex_ltb a b = true.

(** The tokens below a node, each with its payload, in the order the
    walk meets them; a token is the path from the node. *)
Definition under (k : Z) (tk : list Z * option Phenotype)
  : list Z * option Phenotype := (k :: fst tk, snd tk).

Fixpoint tokens (n : TrieNode) : list (list Z * option Phenotype) :=
  (if terminal n =? 0 then [] else [([], p n)]) ++
  avl_inorder (fun k c acc => acc ++ map (under k) (tokens c)) (children n) [].

Definition below (e : Z * TrieNode) : list (list Z * option Phenotype) :=
  map (under (fst e)) (tokens (snd e)).

Definition emit_under (b : list Z) (tk : list Z * option Phenotype)
  : list Z * option Phenotype := (b ++ fst tk, snd tk).

(** [n] successive calls [patrie_lookup(root, K)]: the pointer the last
    call returned (NULL before any call) and the trie after it. *)
Definition lookup_n (n : N) (K : list Z) (t : TrieNode)
  : option (option Phenotype * TrieNode) :=
  N.iter n (fun acc => '(_, t') <- acc ;; patrie_lookup t' K) (Some (None, t)).

(** The number of calls [patrie_lookup(root, K)] among [ops]. *)
Fixpoint count_lookups (K : list Z) (ops : list Op) : Z :=
  match ops with
  | [] => 0
  | OpLookup K' :: rest =>
      (if list_eq_dec_Z K' K then 1 else 0) + count_lookups K rest
  | _ :: rest => count_lookups K rest
  end.

(** Concrete tries for the examples. *)
Definition trie_of (ops : list Op) : TrieNode :=
  match run_ops trie_node_new ops with
  | Some t => t
  | None => trie_node_new
  end.

Definition key_a : list Z := key_of_string "a".
Definition key_ab : list Z := key_of_string "ab".

Definition ops_ab : list Op :=
  [OpInsert key_ab 0.5%float QUAL_CREATIVE (Some "two"%string)].

Definition ops_a_seen_twice : list Op :=
  [OpInsert key_a 0.5%float QUAL_CREATIVE (Some "first"%string);
   OpLookup key_a; OpLookup key_a].

Definition abc_children : AVLChild TrieNode :=
  ANode 98 trie_node_new 2
    (ANode 97 trie_node_new 1 NULL NULL)
    (ANode 99 trie_node_new 1 NULL NULL).

(** The calls of [main], up to the enumeration. *)
#[warnings="-inexact-float"]
Definition main_ops : list Op :=
  [ OpInsert (key_of_string "phenotype") 0.72%float
      (Z.lor QUAL_RESILIENT QUAL_CREATIVE) (Some "root concept"%string);
    OpInsert (key_of_string "phenovalude") 0.85%float
      QUAL_OPTIMIST (Some "value metric"%string);
    OpInsert (key_of_string "phoneme") 0.45%float
      QUAL_ANXIOUS (Some "sound unit"%string);
    OpLookup (key_of_string "phenotype") ].

(** What [print_token] shows of a call. *)
Definition shown (tk : list Z * option Phenotype) : list Z * Z * Z :=
  (fst tk, visits_of (snd tk),
   match snd tk with Some x => qual x | None => 0 end).

(** The round trip as the specification words it: after the insert the
    visits counter is 0, and the lookup that follows returns the inserted
    score, flags and text. *)
Definition roundtrip_as_stated (t : TrieNode) (K : list Z) (sc : float)
  (q : QualFlags) (m : option string) : Prop :=
  exists t' ph t'',
    patrie_insert t K sc q m = Some t' /\
    visits_of (snd (obs t' K)) = 0 /\
    patrie_lookup t' K = Some (Some ph, t'') /\
    score ph = sc /\ qual ph = q /\ meta ph = m.

(** The visit count as the specification words it, for a key just
    inserted into the empty trie: the [n]-th successive lookup returns a
    payload with [visits = n]. *)
Definition visits_equal_calls (n : N) : Prop :=
  forall t1, patrie_insert trie_node_new key_a 0.5%float QUAL_NONE None = Some t1 ->
  exists ph t2,
    lookup_n n key_a t1 = Some (Some ph, t2) /\ visits ph = Z.of_N n.

(** * Vocabulary of the further properties *)

(** The number of entries of a child set. *)
Definition avl_size {T : Type} (t : AVLChild T) : Z :=
  Z.of_nat (List.length (entries t)).

(** The trie seen as a finite map from keys to payloads, and what each
    operation does to that map: an insert stores score, flags and meta and
    keeps the visits of a payload that is there (0 otherwise), a lookup of
    a stored key counts one visit, everything else changes nothing. *)
Definition store : Type := list Z -> option Phenotype.

Definition store_empty : store := fun _ => None.

Definition store_set (s : store) (K : list Z) (v : option Phenotype) : store :=
  fun K' => if list_eq_dec_Z K' K then v else s K'.

Definition abs_op (s : store) (o : Op) : store :=
  match o with
  | OpInsert K sc q m =>
      store_set s K (Some (mkPhenotype sc (visits_of (s K)) q m))
  | OpLookup K =>
      match s K with
      | Some ph => store_set s K (Some (visit ph))
      | None => s
      end
  | OpEnumerate => s
  end.

Definition abs_run (ops : list Op) : store := fold_left abs_op ops store_empty.

(** The number of nodes of a trie. *)
Fixpoint trie_size (n : TrieNode) : Z :=
  1 + avl_inorder (fun _ c acc => acc + trie_size c) (children n) 0.

(** The number of symbols of [key] past the longest prefix of it that
    leads to a node. *)
Fixpoint missing (n : TrieNode) (key : list Z) : Z :=
  match key with
  | [] => 0
  | ch :: rest =>
      match avl_find_child (children n) ch with
      | NULL => Z.of_nat (List.length key)
      | ANode _ c _ _ _ => missing c rest
      end
  end.

(** ** The enumeration buffer

    [ensure_buf] on the [cap] field of the context, a [size_t] taken to be
    64 bits wide: the capacity after the call, the buffer being
    reallocated to it ([realloc] is taken to succeed).  The loop
    [while (nc <= need) nc *= 2] runs under a bound of 64 tests: after 64
    doublings [nc] is 0 and the loop cannot end, which is the result
    [None]. *)
Fixpoint grow_loop (fuel : nat) (nc need : Z) : option Z :=
  match fuel with
  | O => None
  | S f =>
      if nc <=? need then grow_loop f ((nc * 2) mod 2 ^ 64) need
      else Some nc
  end.

Definition ensure_buf (cap need : Z) : option Z :=
  if cap <=? need then
    let nc := if cap =? 0 then 64 else (cap * 2) mod 2 ^ 64 in
    grow_loop 64 nc need
  else Some cap.

(** ** Release

    The calls of [free] in the order they are made, each with what it
    releases; [free(NULL)] releases nothing. *)
Inductive Released : Type :=
| RMeta (txt : string)
| RPhenotype
| RAVLChild (key : Z)
| RTrieNode.

Definition phenotype_free (ph : option Phenotype) (tr : list Released)
  : list Released :=
  match ph with
  | None => tr
  | Some x =>
      (tr ++ match meta x with Some txt => [RMeta txt] | None => [] end)
      ++ [RPhenotype]
  end.

Fixpoint avl_free {T : Type} (root : AVLChild T) (tr : list Released)
  : list Released :=
  match root with
  | NULL => tr
  | ANode k _ _ l r => avl_free r (avl_free l tr) ++ [RAVLChild k]
  end.

Fixpoint visit_free_fn (key : Z) (child : TrieNode) (tr : list Released)
  {struct child} : list Released :=
  let tr1 := avl_inorder visit_free_fn (children child) tr in
  let tr2 := avl_free (children child) tr1 in
  let tr3 := match p child with
             | Some _ => phenotype_free (p child) tr2
             | None => tr2
             end in
  tr3 ++ [RTrieNode].

Definition trie_free (node : TrieNode) (tr : list Released) : list Released :=
  let tr1 := avl_inorder visit_free_fn (children node) tr in
  let tr2 := avl_free (children node) tr1 in
  let tr3 := match p node with
             | Some _ => phenotype_free (p node) tr2
             | None => tr2
             end in
  tr3 ++ [RTrieNode].

Definition is_node (x : Released) : bool :=
  match x with RTrieNode => true | _ => false end.

Definition is_entry (x : Released) : bool :=
  match x with RAVLChild _ => true | _ => false end.

Definition is_payload (x : Released) : bool :=
  match x with RPhenotype => true | _ => false end.

Definition released (f : Released -> bool) (tr : list Released) : Z :=
  Z.of_nat (List.length (filter f tr)).

(** The nodes below the entries of a child set. *)
Definition sizes (es : list (Z * TrieNode)) : Z :=
  fold_right Z.add 0 (map (fun e => trie_size (snd e)) es).

(** Tokens compare by their keys. *)
Definition token_lt (a b : list Z * option Phenotype) : Prop :=
  lex_lt (fst a) (fst b).

Definition ops_a_then_ab : list Op :=
  [OpInsert key_a 0.5%float QUAL_CREATIVE (Some "one"%string);
   OpInsert key_ab 0.25%float QUAL_ANXIOUS None].

Definition ops_ab_then_a : list Op :=
  [OpInsert key_ab 0.25%float QUAL_ANXIOUS None;
   OpInsert key_a 0.5%float QUAL_CREATIVE (Some "one"%string)].

(** The total number of symbols of a list of keys. *)
Definition total_length (ks : list (list Z)) : Z :=
  fold_right (fun k a => Z.of_nat (List.length k) + a) 0 ks.

(** * Properties *)

#[local] Arguments Z.add _ _ : simpl never.
#[local] Arguments Z.sub _ _ : simpl never.
#[local] Arguments Z.max _ _ : simpl never.
#[local] Arguments Z.pow _ _ : simpl never.
#[local] Arguments Z.modulo _ _ : simpl never.

Ltac inv H := inversion H; subst; clear H.

(** Split the conjunctions of the goal, unfolding nothing. *)
Ltac splits := repeat match goal with |- _ /\ _ => split end.

(** ** Association lists sorted by key

    The in-order sequence of a child set is a list of (key, child) pairs;
    the facts below relate the three ways the code touches such a
    sequence: search, insertion of a key, and replacing a stored child. *)

Section EntryListFacts.
Context {T : Type}.

Lemma sorted_keys_app_inv (a b : list (Z * T)) (x : Z) (cx : T) :
  sorted_keys (a ++ (x, cx) :: b) ->
  sorted_keys a /\ sorted_keys b /\
  (forall y, In y (map fst a) -> y < x) /\
  (forall y, In y (map fst b) -> x < y).
Proof.
  unfold sorted_keys. induction a as [|[y cy] a IH]; simpl; intros H.
  - inv H. repeat split; auto using SSorted_nil.
    + contradiction.
    + intros y Hy. rewrite Forall_forall in H3. auto.
  - inv H. destruct (IH H2) as (Ha & Hb & Hlt & Hgt).
    rewrite map_app, Forall_app in H3. simpl in H3. destruct H3 as [Fa Fb].
    repeat split; auto.
    + constructor; auto.
    + intros z [<-|Hz]; auto. inv Fb. assumption.
Qed.

Lemma assoc_None (k : Z) (es : list (Z * T)) :
  assoc k es = None <-> ~ In k (map fst es).
Proof.
  induction es as [|[y cy] es IH]; simpl.
  - tauto.
  - destruct (Z.eqb_spec k y).
    + split; [discriminate | intros H; exfalso; apply H; auto].
    + rewrite IH. split; intros H; [intros [E|I]; [congruence | auto] | tauto].
Qed.

Lemma assoc_In (k : Z) (c : T) (es : list (Z * T)) :
  assoc k es = Some c -> In (k, c) es.
Proof.
  induction es as [|[y cy] es IH]; simpl; [discriminate|].
  destruct (Z.eqb_spec k y); intros H.
  - inv H. auto.
  - auto.
Qed.

Lemma In_assoc (k : Z) (c : T) (es : list (Z * T)) :
  sorted_keys es -> In (k, c) es -> assoc k es = Some c.
Proof.
  unfold sorted_keys.
  induction es as [|[y cy] es IH]; simpl; intros Hs Hin; [contradiction|].
  inv Hs. destruct Hin as [E|Hin].
  - inv E. rewrite Z.eqb_refl. reflexivity.
  - destruct (Z.eqb_spec k y); auto. subst y.
    rewrite Forall_forall in H2.
    specialize (H2 k (in_map fst _ _ Hin)). simpl in H2. lia.
Qed.

Lemma assoc_app (k : Z) (a b : list (Z * T)) :
  assoc k (a ++ b) = match assoc k a with Some c => Some c | None => assoc k b end.
Proof.
  induction a as [|[y cy] a IH]; simpl; auto.
  destruct (k =? y); auto.
Qed.

Lemma ins_entry_app_lt (k x : Z) (c cx : T) (a b : list (Z * T)) :
  k < x ->
  ins_entry k c (a ++ (x, cx) :: b) = ins_entry k c a ++ (x, cx) :: b.
Proof.
  intros Hlt. induction a as [|[y cy] a IH]; simpl.
  - destruct (Z.ltb_spec k x); [reflexivity | lia].
  - destruct (k <? y); [reflexivity|].
    destruct (k >? y); [rewrite IH|]; reflexivity.
Qed.

Lemma ins_entry_app_gt (k x : Z) (c cx : T) (a b : list (Z * T)) :
  (forall y, In y (map fst a) -> y < x) -> x < k ->
  ins_entry k c (a ++ (x, cx) :: b) = a ++ (x, cx) :: ins_entry k c b.
Proof.
  intros Ha Hlt. induction a as [|[y cy] a IH]; simpl.
  - destruct (Z.ltb_spec k x); [lia|].
    destruct (Z.gtb_spec k x); [reflexivity | lia].
  - assert (y < x) by (apply Ha; simpl; auto).
    destruct (Z.ltb_spec k y); [lia|].
    destruct (Z.gtb_spec k y); [|lia].
    rewrite IH; [reflexivity|]. intros z Hz. apply Ha. simpl. auto.
Qed.

Lemma ins_entry_app_eq (k : Z) (c cx : T) (a b : list (Z * T)) :
  (forall y, In y (map fst a) -> y < k) ->
  ins_entry k c (a ++ (k, cx) :: b) = a ++ (k, c) :: b.
Proof.
  intros Ha. induction a as [|[y cy] a IH]; simpl.
  - rewrite Z.ltb_irrefl.
    destruct (Z.gtb_spec k k); [lia | reflexivity].
  - assert (y < k) by (apply Ha; simpl; auto).
    destruct (Z.ltb_spec k y); [lia|].
    destruct (Z.gtb_spec k y); [|lia].
    rewrite IH; [reflexivity|]. intros z Hz. apply Ha. simpl. auto.
Qed.

Lemma ins_entry_keys (k x : Z) (c : T) (es : list (Z * T)) :
  In x (map fst (ins_entry k c es)) <-> x = k \/ In x (map fst es).
Proof.
  induction es as [|[y cy] es IH]; simpl.
  - intuition auto.
  - destruct (Z.ltb_spec k y); simpl; [intuition auto|].
    destruct (Z.gtb_spec k y); simpl.
    + rewrite IH. intuition auto.
    + assert (k = y) by lia. subst y. intuition auto.
Qed.

Lemma ins_entry_sorted (k : Z) (c : T) (es : list (Z * T)) :
  sorted_keys es -> sorted_keys (ins_entry k c es).
Proof.
  unfold sorted_keys. induction es as [|[y cy] es IH]; simpl; intros Hs.
  - repeat constructor.
  - inv Hs. destruct (Z.ltb_spec k y); simpl.
    + constructor; [constructor; auto|].
      constructor; auto.
      rewrite Forall_forall in *. intros z Hz. specialize (H2 z Hz). lia.
    + destruct (Z.gtb_spec k y); simpl.
      * constructor; auto.
        apply Forall_forall. intros z Hz.
        apply ins_entry_keys in Hz. destruct Hz as [->|Hz]; [lia|].
        rewrite Forall_forall in H2. auto.
      * constructor; auto.
Qed.

Lemma assoc_ins_entry_same (k : Z) (c : T) (es : list (Z * T)) :
  assoc k (ins_entry k c es) = Some c.
Proof.
  induction es as [|[y cy] es IH]; simpl.
  - rewrite Z.eqb_refl. reflexivity.
  - destruct (Z.ltb_spec k y); simpl.
    + rewrite Z.eqb_refl. reflexivity.
    + destruct (Z.gtb_spec k y); simpl.
      * destruct (Z.eqb_spec k y); [lia | assumption].
      * destruct (Z.eqb_spec k y); [reflexivity | lia].
Qed.

Lemma assoc_ins_entry_other (k x : Z) (c : T) (es : list (Z * T)) :
  x <> k -> assoc x (ins_entry k c es) = assoc x es.
Proof.
  intros Hne. induction es as [|[y cy] es IH]; simpl.
  - destruct (Z.eqb_spec x k); [contradiction | reflexivity].
  - destruct (Z.ltb_spec k y); simpl.
    + destruct (Z.eqb_spec x k); [contradiction | reflexivity].
    + destruct (Z.gtb_spec k y); simpl.
      * rewrite IH. reflexivity.
      * assert (k = y) by lia. subst y.
        destruct (Z.eqb_spec x k); [contradiction | reflexivity].
Qed.

Lemma ins_entry_Forall (P : T -> Prop) (k : Z) (c : T) (es : list (Z * T)) :
  P c -> Forall (fun e => P (snd e)) es ->
  Forall (fun e => P (snd e)) (ins_entry k c es).
Proof.
  intros Hc. induction es as [|[y cy] es IH]; simpl; intros H.
  - constructor; auto.
  - inv H. destruct (k <? y); [constructor; auto|].
    destruct (k >? y); constructor; auto.
Qed.

Lemma upd_entry_keys (k : Z) (c : T) (es : list (Z * T)) :
  map fst (upd_entry k c es) = map fst es.
Proof.
  induction es as [|[y cy] es IH]; simpl; auto.
  destruct (k =? y); simpl; congruence.
Qed.

Lemma upd_entry_absent (k : Z) (c : T) (es : list (Z * T)) :
  assoc k es = None -> upd_entry k c es = es.
Proof.
  induction es as [|[y cy] es IH]; simpl; auto.
  destruct (k =? y); [discriminate|]. intros H. rewrite IH; auto.
Qed.

Lemma upd_entry_app (k : Z) (c : T) (a b : list (Z * T)) :
  upd_entry k c (a ++ b) =
  match assoc k a with
  | Some _ => upd_entry k c a ++ b
  | None => a ++ upd_entry k c b
  end.
Proof.
  induction a as [|[y cy] a IH]; simpl; auto.
  destruct (k =? y); simpl; auto.
  rewrite IH. destruct (assoc k a); reflexivity.
Qed.

Lemma assoc_upd_entry_same (k : Z) (c : T) (es : list (Z * T)) :
  assoc k (upd_entry k c es) =
  match assoc k es with Some _ => Some c | None => None end.
Proof.
  induction es as [|[y cy] es IH]; simpl; auto.
  destruct (Z.eqb_spec k y); simpl.
  - subst. rewrite Z.eqb_refl. reflexivity.
  - destruct (Z.eqb_spec k y); [contradiction | assumption].
Qed.

Lemma assoc_upd_entry_other (k x : Z) (c : T) (es : list (Z * T)) :
  x <> k -> assoc x (upd_entry k c es) = assoc x es.
Proof.
  intros Hne. induction es as [|[y cy] es IH]; simpl; auto.
  destruct (Z.eqb_spec k y); simpl.
  - subst y. destruct (Z.eqb_spec x k); [contradiction | reflexivity].
  - rewrite IH. reflexivity.
Qed.

Lemma upd_entry_Forall (P : T -> Prop) (k : Z) (c : T) (es : list (Z * T)) :
  P c -> Forall (fun e => P (snd e)) es ->
  Forall (fun e => P (snd e)) (upd_entry k c es).
Proof.
  intros Hc. induction es as [|[y cy] es IH]; simpl; intros H.
  - constructor.
  - inv H. destruct (k =? y); constructor; auto.
Qed.

Lemma assoc_Forall (P : T -> Prop) (k : Z) (c : T) (es : list (Z * T)) :
  Forall (fun e => P (snd e)) es -> assoc k es = Some c -> P c.
Proof.
  intros HF H. apply assoc_In in H. rewrite Forall_forall in HF.
  apply (HF _ H).
Qed.

End EntryListFacts.

(** ** Child sets: order, heights, balance *)

Section AVLFacts.
Context {T : Type}.
Implicit Types (t l r : AVLChild T) (k : Z) (c : T).

Lemma max_Zmax (a b : Z) : max a b = Z.max a b.
Proof. unfold max. destruct (Z.gtb_spec a b); lia. Qed.

Lemma ht_nonneg t : 0 <= ht t.
Proof. induction t; simpl; lia. Qed.

Lemma height_avl_ht t : heights_ok t -> height_avl t = ht t.
Proof. destruct t; simpl; intuition. Qed.

Lemma avl_inorder_fold {S : Type} (fn : Z -> T -> S -> S) t (s : S) :
  avl_inorder fn t s = fold_left (fun a e => fn (fst e) (snd e) a) (entries t) s.
Proof.
  assert (G : forall t acc s,
    fold_left (fun a e => fn (fst e) (snd e) a)
      (avl_inorder (fun k c acc => acc ++ [(k, c)]) t acc) s =
    avl_inorder fn t (fold_left (fun a e => fn (fst e) (snd e) a) acc s)).
  { clear. induction t as [|k c h l IHl r IHr]; intros acc s; simpl; auto.
    rewrite IHr, fold_left_app, IHl. reflexivity. }
  unfold entries. rewrite G. reflexivity.
Qed.

Lemma entries_node k c h l r :
  entries (ANode k c h l r) = entries l ++ (k, c) :: entries r.
Proof.
  assert (G : forall t acc,
    avl_inorder (fun k c acc => acc ++ [(k, c)]) t acc = acc ++ entries t).
  { clear. unfold entries.
    induction t as [|k c h l IHl r IHr]; intros acc; simpl.
    - rewrite app_nil_r. reflexivity.
    - rewrite (IHr (avl_inorder _ l acc ++ _)), (IHl acc).
      rewrite (IHr (avl_inorder _ l [] ++ _)).
      rewrite <- !app_assoc. reflexivity. }
  unfold entries at 1. simpl. rewrite G. fold (entries l).
  now rewrite <- app_assoc.
Qed.

Lemma bst_node_inv k c h l r :
  bst (ANode k c h l r) ->
  bst l /\ bst r /\
  (forall y, In y (keys l) -> y < k) /\ (forall y, In y (keys r) -> k < y).
Proof. unfold bst. rewrite entries_node. apply sorted_keys_app_inv. Qed.

(** *** Search *)

Lemma avl_find_child_assoc t k :
  bst t -> child_of (avl_find_child t k) = assoc k (entries t).
Proof.
  induction t as [|rk rc rh l IHl r IHr]; intros Hb; simpl; auto.
  destruct (bst_node_inv _ _ _ _ _ Hb) as (Hl & Hr & Hlt & Hgt).
  rewrite entries_node, assoc_app. simpl.
  destruct (Z.eqb_spec k rk) as [->|Hne].
  - simpl. destruct (assoc rk (entries l)) eqn:E; auto.
    apply assoc_In in E. apply (in_map fst) in E.
    specialize (Hlt _ E). simpl in Hlt. lia.
  - destruct (Z.ltb_spec k rk).
    + rewrite IHl by assumption.
      destruct (assoc k (entries l)); auto.
      symmetry. apply assoc_None. intros Hin.
      specialize (Hgt _ Hin). lia.
    + rewrite IHr by assumption.
      destruct (assoc k (entries l)) eqn:E; auto.
      apply assoc_In in E. apply (in_map fst) in E.
      specialize (Hlt _ E). simpl in Hlt. lia.
Qed.

Lemma avl_find_child_key t k :
  match avl_find_child t k with
  | NULL => True
  | ANode k' _ _ _ _ => k' = k
  end.
Proof.
  induction t as [|rk rc rh l IHl r IHr]; simpl; auto.
  destruct (Z.eqb_spec k rk); auto.
  destruct (k <? rk); auto.
Qed.

(** *** Writing a child back *)

Lemma ht_write_back t k c : ht (avl_write_back t k c) = ht t.
Proof.
  induction t as [|rk rc rh l IHl r IHr]; simpl; auto.
  destruct (k =? rk); simpl; auto.
  destruct (k <? rk); simpl; congruence.
Qed.

Lemma heights_ok_write_back t k c :
  heights_ok t -> heights_ok (avl_write_back t k c).
Proof.
  induction t as [|rk rc rh l IHl r IHr]; simpl; auto.
  intros (H & Hl & Hr).
  destruct (k =? rk); simpl; auto.
  destruct (k <? rk); simpl; rewrite ?ht_write_back; auto.
Qed.

Lemma balanced_write_back t k c :
  balanced t -> balanced (avl_write_back t k c).
Proof.
  induction t as [|rk rc rh l IHl r IHr]; simpl; auto.
  intros (H & Hl & Hr).
  destruct (k =? rk); simpl; auto.
  destruct (k <? rk); simpl; rewrite ?ht_write_back; auto.
Qed.

Lemma entries_write_back t k c :
  bst t -> entries (avl_write_back t k c) = upd_entry k c (entries t).
Proof.
  induction t as [|rk rc rh l IHl r IHr]; intros Hb; simpl; auto.
  destruct (bst_node_inv _ _ _ _ _ Hb) as (Hl & Hr & Hlt & Hgt).
  assert (Hnl : rk <= k -> assoc k (entries l) = None).
  { intros Hle. apply assoc_None. intros Hin. specialize (Hlt _ Hin). lia. }
  rewrite (entries_node rk rc), upd_entry_app. simpl.
  destruct (Z.eqb_spec k rk) as [->|Hne].
  - rewrite entries_node, Hnl by lia. reflexivity.
  - destruct (Z.ltb_spec k rk).
    + rewrite entries_node, IHl by assumption.
      destruct (assoc k (entries l)) eqn:E; auto.
      rewrite (upd_entry_absent _ _ _ E). f_equal. f_equal.
      symmetry. apply upd_entry_absent.
      apply assoc_None. intros Hin. specialize (Hgt _ Hin). lia.
    + rewrite entries_node, IHr, Hnl by (assumption || lia). reflexivity.
Qed.

Lemma avl_ok_write_back t k c : avl_ok t -> avl_ok (avl_write_back t k c).
Proof.
  intros (Hb & Hh & Hbal). repeat split.
  - unfold bst, sorted_keys. rewrite entries_write_back, upd_entry_keys; auto.
  - apply heights_ok_write_back; auto.
  - apply balanced_write_back; auto.
Qed.

(** *** Rebalancing *)

Ltac avl_arith :=
  cbn [heights_ok balanced ht]; repeat split; auto; lia.

Lemma rebalance_ok key rk rc rh l r :
  heights_ok l -> heights_ok r -> balanced l -> balanced r ->
  (ht l - ht r <= 1 \/ (ht l - ht r = 2 /\ grew key l)) ->
  (ht r - ht l <= 1 \/ (ht r - ht l = 2 /\ grew key r)) ->
  exists t',
    rebalance (ANode rk rc rh l r) key = Some t' /\
    heights_ok t' /\ balanced t' /\
    entries t' = entries l ++ (rk, rc) :: entries r /\
    ((-1 <= ht l - ht r <= 1 /\
      t' = ANode rk rc (1 + Z.max (ht l) (ht r)) l r) \/
     (~ -1 <= ht l - ht r <= 1 /\ ht t' = Z.max (ht l) (ht r))).
Proof.
  intros Hhl Hhr Hbl Hbr HL HR.
  unfold rebalance.
  cbn [update_height balance_factor left_of right_of bind].
  rewrite !(height_avl_ht l), !(height_avl_ht r), max_Zmax by assumption.
  destruct (Z.gtb_spec (ht l - ht r) 1) as [Hgt|Hle].
  - (* left-heavy *)
    destruct HL as [?|[Hd Hg]]; [lia|].
    destruct l as [|lk lc lh ll lr]; [contradiction|].
    cbn [key_of bind]. cbn [grew] in Hg.
    cbn [heights_ok] in Hhl. destruct Hhl as (Elh & Hhll & Hhlr).
    cbn [balanced] in Hbl. destruct Hbl as (Bl & Hbll & Hblr).
    cbn [ht] in Hd.
    pose proof (ht_nonneg ll). pose proof (ht_nonneg lr). pose proof (ht_nonneg r).
    destruct Hg as [[Hk Hh]|[Hk Hh]].
    + (* left-left: one right rotation *)
      destruct (Z.ltb_spec key lk); [|lia].
      cbn [rotate_right update_height].
      rewrite !max_Zmax. cbn [height_avl].
      rewrite !(height_avl_ht ll), !(height_avl_ht lr), !(height_avl_ht r),
        ?max_Zmax by assumption.
      eexists. split; [reflexivity|].
      refine (conj _ (conj _ (conj _ _))).
      * avl_arith.
      * avl_arith.
      * rewrite !entries_node, <- app_assoc. reflexivity.
      * right. cbn [ht]. lia.
    + (* left-right: rotate the left child left, then the root right *)
      destruct (Z.ltb_spec key lk); [lia|].
      destruct (Z.ltb_spec (ht (ANode lk lc lh ll lr) - ht r) (-1));
        [cbn [ht] in *; lia|].
      cbn [bind]. destruct (Z.gtb_spec key lk); [|lia].
      destruct lr as [|mk mc mh ml mr]; [cbn [ht] in Hh; lia|].
      cbn [heights_ok] in Hhlr. destruct Hhlr as (Emh & Hhml & Hhmr).
      cbn [balanced] in Hblr. destruct Hblr as (Bm & Hbml & Hbmr).
      cbn [ht] in *.
      pose proof (ht_nonneg ml). pose proof (ht_nonneg mr).
      cbn [rotate_left rotate_right update_height bind].
      rewrite !max_Zmax. cbn [height_avl].
      rewrite !(height_avl_ht ll), !(height_avl_ht ml), !(height_avl_ht mr),
        !(height_avl_ht r), ?max_Zmax by assumption.
      eexists. split; [reflexivity|].
      refine (conj _ (conj _ (conj _ _))).
      * avl_arith.
      * avl_arith.
      * rewrite !entries_node, <- !app_assoc. simpl. rewrite <- app_assoc.
        reflexivity.
      * right. cbn [ht]. lia.
  - cbn [bind].
    destruct (Z.ltb_spec (ht l - ht r) (-1)) as [Hlt|Hge].
    + (* right-heavy *)
      destruct HR as [?|[Hd Hg]]; [lia|].
      destruct r as [|qk qc qh ql qr]; [contradiction|].
      cbn [key_of bind]. cbn [grew] in Hg.
      cbn [heights_ok] in Hhr. destruct Hhr as (Eqh & Hhql & Hhqr).
      cbn [balanced] in Hbr. destruct Hbr as (Bq & Hbql & Hbqr).
      cbn [ht] in Hd.
      pose proof (ht_nonneg ql). pose proof (ht_nonneg qr). pose proof (ht_nonneg l).
      destruct Hg as [[Hk Hh]|[Hk Hh]].
      * (* right-left: rotate the right child right, then the root left *)
        destruct (Z.gtb_spec key qk); [lia|].
        cbn [bind]. destruct (Z.ltb_spec key qk); [|lia].
        destruct ql as [|mk mc mh ml mr]; [cbn [ht] in Hh; lia|].
        cbn [heights_ok] in Hhql. destruct Hhql as (Emh & Hhml & Hhmr).
        cbn [balanced] in Hbql. destruct Hbql as (Bm & Hbml & Hbmr).
        cbn [ht] in *.
        pose proof (ht_nonneg ml). pose proof (ht_nonneg mr).
        cbn [rotate_left rotate_right update_height bind].
        rewrite !max_Zmax. cbn [height_avl].
        rewrite !(height_avl_ht l), !(height_avl_ht ml), !(height_avl_ht mr),
          !(height_avl_ht qr), ?max_Zmax by assumption.
        eexists. split; [reflexivity|].
        refine (conj _ (conj _ (conj _ _))).
        -- avl_arith.
        -- avl_arith.
        -- rewrite !entries_node, <- !app_assoc. reflexivity.
        -- right. cbn [ht]. lia.
      * (* right-right: one left rotation *)
        destruct (Z.gtb_spec key qk); [|lia].
        cbn [rotate_left update_height].
        rewrite !max_Zmax. cbn [height_avl].
        rewrite !(height_avl_ht l), !(height_avl_ht ql), !(height_avl_ht qr),
          ?max_Zmax by assumption.
        eexists. split; [reflexivity|].
        refine (conj _ (conj _ (conj _ _))).
        -- avl_arith.
        -- avl_arith.
        -- rewrite !entries_node, <- !app_assoc. reflexivity.
        -- right. cbn [ht]. lia.
    + (* within bounds: the node stays *)
      cbn [bind].
      eexists. split; [reflexivity|].
      refine (conj _ (conj _ (conj _ _))).
      * avl_arith.
      * avl_arith.
      * rewrite entries_node. reflexivity.
      * left. split; [lia | reflexivity].
Qed.

(** *** Insertion *)

Lemma avl_insert_child_ok t key child :
  avl_ok t ->
  exists t',
    avl_insert_child t key child = Some t' /\
    heights_ok t' /\ balanced t' /\
    entries t' = ins_entry key child (entries t) /\
    (ht t' = ht t \/ (ht t' = ht t + 1 /\ (t <> NULL -> grew key t'))).
Proof.
  induction t as [|rk rc rh l IHl r IHr]; intros (Hb & Hh & Hbal).
  - eexists. split; [reflexivity|].
    refine (conj _ (conj _ (conj _ _)));
      [avl_arith | avl_arith | reflexivity |].
    right. split; [reflexivity | congruence].
  - destruct (bst_node_inv _ _ _ _ _ Hb) as (Hbl & Hbr & Hlt & Hgt).
    cbn [heights_ok] in Hh. destruct Hh as (Erh & Hhl & Hhr).
    cbn [balanced] in Hbal. destruct Hbal as (B & Hball & Hbalr).
    pose proof (ht_nonneg l). pose proof (ht_nonneg r).
    cbn [avl_insert_child].
    destruct (Z.ltb_spec key rk) as [Hk|Hk].
    + (* into the left subtree *)
      destruct IHl as (l' & -> & Hhl' & Hbl' & El' & Hgrow); [repeat split; auto|].
      cbn [bind].
      destruct (rebalance_ok key rk rc rh l' r) as (t' & -> & Hht' & Hbt' & Et' & Hsh);
        auto.
      { destruct Hgrow as [E|[E G]]; [left; lia|].
        destruct (Z.le_gt_cases (ht l' - ht r) 1); [left; assumption|].
        right. split; [lia|]. apply G. intros ->. cbn [ht] in *. lia. }
      { left. lia. }
      eexists. split; [reflexivity|].
      refine (conj Hht' (conj Hbt' (conj _ _))).
      * rewrite Et', El', entries_node, ins_entry_app_lt by assumption.
        reflexivity.
      * cbn [ht]. destruct Hsh as [[Hin ->]|[Hout E]].
        -- cbn [ht grew].
           destruct Hgrow as [E|[E G]]; [left; lia|].
           destruct (Z.le_gt_cases (ht l') (ht r)); [left; lia|].
           right. split; [lia|]. intros _. left. lia.
        -- left. lia.
    + destruct (Z.gtb_spec key rk) as [Hk'|Hk'].
      * (* into the right subtree *)
        destruct IHr as (r' & -> & Hhr' & Hbr' & Er' & Hgrow); [repeat split; auto|].
        cbn [bind].
        destruct (rebalance_ok key rk rc rh l r') as (t' & -> & Hht' & Hbt' & Et' & Hsh);
          auto.
        { left. lia. }
        { destruct Hgrow as [E|[E G]]; [left; lia|].
          destruct (Z.le_gt_cases (ht r' - ht l) 1); [left; assumption|].
          right. split; [lia|]. apply G. intros ->. cbn [ht] in *. lia. }
        eexists. split; [reflexivity|].
        refine (conj Hht' (conj Hbt' (conj _ _))).
        -- rewrite Et', Er', entries_node, ins_entry_app_gt by (auto; lia).
           reflexivity.
        -- cbn [ht]. destruct Hsh as [[Hin ->]|[Hout E]].
           ++ cbn [ht grew].
              destruct Hgrow as [E|[E G]]; [left; lia|].
              destruct (Z.le_gt_cases (ht r') (ht l)); [left; lia|].
              right. split; [lia|]. intros _. right. lia.
           ++ left. lia.
      * (* the key is there: the child pointer is overwritten *)
        assert (key = rk) by lia. subst rk.
        eexists. split; [reflexivity|].
        refine (conj _ (conj _ (conj _ _))); [avl_arith | avl_arith | |].
        -- rewrite !entries_node, ins_entry_app_eq by assumption. reflexivity.
        -- left. reflexivity.
Qed.

Lemma balanced_bf_bounded t : heights_ok t -> balanced t -> bf_bounded t.
Proof.
  induction t as [|k c h l IHl r IHr]; simpl; auto.
  intros (_ & Hl & Hr) (B & Bl & Br).
  rewrite !height_avl_ht by assumption. auto.
Qed.

(** Called with a key that is there, [avl_insert_child] overwrites the
    stored child pointer and changes nothing else; [patrie_insert] calls it
    only after [avl_find_child] has returned NULL. *)
Lemma avl_insert_child_present t key child :
  avl_ok t -> In key (keys t) ->
  avl_insert_child t key child = Some (avl_write_back t key child).
Proof.
  induction t as [|rk rc rh l IHl r IHr]; intros (Hb & Hh & Hbal) Hin.
  - contradiction.
  - destruct (bst_node_inv _ _ _ _ _ Hb) as (Hbl & Hbr & Hlt & Hgt).
    cbn [heights_ok] in Hh. destruct Hh as (Erh & Hhl & Hhr).
    cbn [balanced] in Hbal. destruct Hbal as (B & Hball & Hbalr).
    unfold keys in Hin. rewrite entries_node, map_app, in_app_iff in Hin.
    cbn [avl_insert_child avl_write_back].
    destruct (Z.eqb_spec key rk) as [->|Hne].
    + rewrite Z.ltb_irrefl.
      destruct (Z.gtb_spec rk rk); [lia | reflexivity].
    + destruct (Z.ltb_spec key rk) as [Hk|Hk].
      * assert (Hinl : In key (keys l)).
        { destruct Hin as [?|[?|Hr]]; [assumption | simpl in *; lia |].
          specialize (Hgt _ Hr). lia. }
        rewrite IHl by (unfold avl_ok; auto). cbn [bind].
        destruct (rebalance_ok key rk rc rh (avl_write_back l key child) r)
          as (t' & -> & _ & _ & _ & Hsh);
          auto using heights_ok_write_back, balanced_write_back;
          try (left; rewrite ht_write_back; lia).
        rewrite ht_write_back in Hsh.
        destruct Hsh as [[_ ->]|[Hout _]]; [|lia].
        rewrite Erh. reflexivity.
      * destruct (Z.gtb_spec key rk); [|lia].
        assert (Hinr : In key (keys r)).
        { destruct Hin as [Hl|[?|?]]; [|simpl in *; lia | assumption].
          specialize (Hlt _ Hl). lia. }
        rewrite IHr by (unfold avl_ok; auto). cbn [bind].
        destruct (rebalance_ok key rk rc rh l (avl_write_back r key child))
          as (t' & -> & _ & _ & _ & Hsh);
          auto using heights_ok_write_back, balanced_write_back;
          try (left; rewrite ht_write_back; lia).
        rewrite ht_write_back in Hsh.
        destruct Hsh as [[_ ->]|[Hout _]]; [|lia].
        rewrite Erh. reflexivity.
Qed.

Lemma avl_insert_child_avl_ok t key child :
  avl_ok t ->
  exists t',
    avl_insert_child t key child = Some t' /\ avl_ok t' /\
    entries t' = ins_entry key child (entries t).
Proof.
  intros Hok.
  destruct (avl_insert_child_ok t key child Hok) as (t' & E & Hh & Hb & Ee & _).
  exists t'. repeat split; auto.
  unfold bst. rewrite Ee. apply ins_entry_sorted. apply Hok.
Qed.

End AVLFacts.

(** ** Predicates over every node of a trie *)

Section AvlAllFacts.
Context {T : Type}.
Variable P : T -> Prop.

Lemma avl_all_entries (t : AVLChild T) :
  avl_all P t <-> Forall (fun e => P (snd e)) (entries t).
Proof.
  induction t as [|k c h l IHl r IHr]; simpl.
  - split; constructor.
  - rewrite entries_node, Forall_app, Forall_cons_iff, IHl, IHr. simpl. tauto.
Qed.

End AvlAllFacts.

Lemma trie_forall_node (P : TrieNode -> Prop) t ph cs :
  trie_forall P (mkTrieNode t ph cs) <->
  P (mkTrieNode t ph cs) /\
  Forall (fun e => trie_forall P (snd e)) (entries cs).
Proof. simpl. rewrite avl_all_entries. reflexivity. Qed.

Lemma trie_forall_impl (P Q : TrieNode -> Prop) :
  (forall n, P n -> Q n) -> forall n, trie_forall P n -> trie_forall Q n.
Proof.
  intros HPQ. fix IH 1. intros [t ph cs] [Hn Hc]. split; [auto|].
  simpl in *. clear Hn.
  induction cs as [|k c h l IHl r IHr]; simpl in *; auto.
  destruct Hc as (Hc & Hl & Hr). auto.
Qed.

Lemma TrieNode_entries_ind (P : TrieNode -> Prop) :
  (forall t ph cs,
     Forall (fun e => P (snd e)) (entries cs) -> P (mkTrieNode t ph cs)) ->
  forall n, P n.
Proof.
  intros H. fix IH 1. intros [t ph cs]. apply H. apply avl_all_entries.
  induction cs as [|k c h l IHl r IHr]; simpl; auto.
Qed.

(** ** What a key leads to *)

Lemma obs_nil n : obs n [] = (terminal n, p n).
Proof. reflexivity. Qed.

Lemma obs_cons t ph cs ch rest :
  bst cs ->
  obs (mkTrieNode t ph cs) (ch :: rest) =
  match assoc ch (entries cs) with
  | Some c => obs c rest
  | None => (0, None)
  end.
Proof.
  intros Hb. rewrite <- avl_find_child_assoc by assumption.
  unfold obs. simpl. destruct (avl_find_child cs ch); reflexivity.
Qed.

Lemma obs_trie_node_new key : obs trie_node_new key = (0, None).
Proof. destruct key; reflexivity. Qed.

Lemma trie_wf_new : trie_wf trie_node_new.
Proof.
  split; simpl; auto. split.
  - repeat split; simpl; auto. constructor.
  - simpl. split; intros H; contradiction.
Qed.

Lemma strdup_id (m : option string) :
  match m with Some _ => my_strdup m | None => None end = m.
Proof. destruct m; reflexivity. Qed.

(** ** One step of the walk *)

Lemma avl_write_back_same {T : Type} (t : AVLChild T) (k : Z) (c : T) :
  child_of (avl_find_child t k) = Some c -> avl_write_back t k c = t.
Proof.
  induction t as [|rk rc rh l IHl r IHr]; simpl; auto.
  destruct (k =? rk); simpl.
  - intros H. inv H. reflexivity.
  - destruct (k <? rk); intros H; [rewrite IHl | rewrite IHr]; auto.
Qed.

Lemma insert_or_get_ok (cs : AVLChild TrieNode) (ch : Z) :
  avl_ok cs -> Forall (fun e => trie_wf (snd e)) (entries cs) ->
  exists cs' ac cur,
    insert_or_get cs ch = Some (cs', ac) /\
    child_of ac = Some cur /\
    avl_ok cs' /\
    Forall (fun e => trie_wf (snd e)) (entries cs') /\
    assoc ch (entries cs') = Some cur /\
    (forall x, x <> ch -> assoc x (entries cs') = assoc x (entries cs)) /\
    trie_wf cur /\
    (forall rest,
       obs cur rest =
       match assoc ch (entries cs) with
       | Some c => obs c rest
       | None => (0, None)
       end).
Proof.
  intros Hok Hall. unfold insert_or_get.
  pose proof (avl_find_child_assoc cs ch (proj1 Hok)) as Hf.
  destruct (avl_find_child cs ch) as [|k c h l r] eqn:E.
  - destruct (avl_insert_child_avl_ok cs ch trie_node_new Hok)
      as (cs' & -> & Hok' & Ee).
    cbn [bind]. exists cs', (avl_find_child cs' ch), trie_node_new.
    assert (A : assoc ch (entries cs') = Some trie_node_new)
      by (rewrite Ee; apply assoc_ins_entry_same).
    splits; auto using trie_wf_new.
    + rewrite avl_find_child_assoc by apply Hok'. assumption.
    + rewrite Ee. apply ins_entry_Forall; auto using trie_wf_new.
    + intros x Hx. rewrite Ee. apply assoc_ins_entry_other. assumption.
    + intros rest. simpl in Hf. rewrite <- Hf. apply obs_trie_node_new.
  - exists cs, (ANode k c h l r), c. simpl in Hf.
    splits; auto.
    + eapply assoc_Forall with (P := trie_wf); eauto.
    + intros rest. rewrite <- Hf. reflexivity.
Qed.

(** ** Insertion *)

Lemma store_phenotype_ok cur sc q m :
  trie_wf cur ->
  trie_wf (store_phenotype cur sc q m) /\
  terminal (store_phenotype cur sc q m) = 1 /\
  p (store_phenotype cur sc q m) =
    Some (mkPhenotype sc (visits_of (p cur)) q m) /\
  children (store_phenotype cur sc q m) = children cur.
Proof.
  destruct cur as [t ph cs]. intros [[Hok Htp] Hc].
  unfold store_phenotype, phenotype_new. rewrite !strdup_id.
  simpl in Hok, Hc.
  assert (G : forall x, trie_wf (mkTrieNode 1 (Some x) cs)).
  { intros x. split; [split|]; simpl; auto.
    split; intros _; [discriminate | lia]. }
  destruct ph as [old|]; splits; auto.
Qed.

Lemma patrie_insert_ok key sc q m :
  forall root, trie_wf root ->
  exists root',
    patrie_insert root key sc q m = Some root' /\
    trie_wf root' /\
    obs root' key =
      (1, Some (mkPhenotype sc (visits_of (snd (obs root key))) q m)) /\
    (forall key', key' <> key -> obs root' key' = obs root key').
Proof.
  induction key as [|ch rest IH]; intros root Hwf.
  - destruct (store_phenotype_ok root sc q m Hwf) as (Hwf' & Ht & Hp & Hcs).
    eexists. split; [reflexivity|]. split; [assumption|]. split.
    + rewrite !obs_nil, Ht, Hp. reflexivity.
    + intros [|x key'] Hne; [contradiction|].
      unfold obs. simpl. rewrite Hcs. reflexivity.
  - destruct root as [t ph cs]. pose proof Hwf as Hwf0.
    apply trie_forall_node in Hwf. destruct Hwf as [[Hok Htp] Hall].
    simpl in Hok, Htp.
    destruct (insert_or_get_ok cs ch Hok Hall)
      as (cs' & ac & cur & Eig & Eac & Hok' & Hall' & Hcur & Hother & Hwfc & Hobs).
    destruct (IH cur Hwfc) as (cur' & Eins & Hwfc' & Hobs' & Hframe).
    cbn [patrie_insert]. rewrite Eig. cbn [bind]. rewrite Eac. cbn [bind].
    rewrite Eins. cbn [bind].
    eexists. split; [reflexivity|].
    assert (Hok'' : avl_ok (avl_write_back cs' ch cur'))
      by (apply avl_ok_write_back; assumption).
    assert (Een : entries (avl_write_back cs' ch cur') =
                  upd_entry ch cur' (entries cs'))
      by (apply entries_write_back; apply Hok').
    split; [|split].
    + apply trie_forall_node. split; [split; assumption|].
      rewrite Een. apply upd_entry_Forall; assumption.
    + rewrite !obs_cons by (apply Hok'' || apply Hok).
      rewrite Een, assoc_upd_entry_same, Hcur, Hobs', Hobs. reflexivity.
    + intros [|x key'] Hne; [reflexivity|].
      rewrite !obs_cons by (apply Hok'' || apply Hok). rewrite Een.
      destruct (Z.eq_dec x ch) as [->|Hx].
      * rewrite assoc_upd_entry_same, Hcur, Hframe, Hobs by congruence.
        reflexivity.
      * rewrite assoc_upd_entry_other, Hother by assumption. reflexivity.
Qed.

(** ** Lookup *)

Lemma patrie_lookup_ok key :
  forall root, trie_wf root ->
  (fst (obs root key) = 0 /\ patrie_lookup root key = Some (None, root)) \/
  (fst (obs root key) <> 0 /\
   exists old root',
     snd (obs root key) = Some old /\
     patrie_lookup root key = Some (Some (visit old), root') /\
     trie_wf root' /\
     obs root' key = (fst (obs root key), Some (visit old)) /\
     (forall key', key' <> key -> obs root' key' = obs root key')).
Proof.
  induction key as [|ch rest IH]; intros root Hwf.
  - destruct root as [t ph cs]. rewrite obs_nil. cbn [fst snd terminal p].
    cbn [patrie_lookup].
    destruct (Z.eqb_spec t 0) as [->|Ht]; [left; auto|].
    right. split; [assumption|].
    destruct Hwf as [[Hok Htp] Hc]. simpl in Htp.
    destruct ph as [old|]; [|exfalso; apply (proj1 Htp Ht); reflexivity].
    exists old. eexists. cbn [bind]. splits; try reflexivity.
    + split; [split|]; simpl; auto. split; intros _; [discriminate | assumption].
    + intros [|x key'] Hne; [contradiction | reflexivity].
  - destruct root as [t ph cs]. pose proof Hwf as Hwf0.
    apply trie_forall_node in Hwf. destruct Hwf as [[Hok Htp] Hall].
    simpl in Hok, Htp.
    rewrite obs_cons by apply Hok. cbn [patrie_lookup].
    pose proof (avl_find_child_assoc cs ch (proj1 Hok)) as Hf.
    destruct (avl_find_child cs ch) as [|k cur h l r] eqn:E; simpl in Hf;
      rewrite <- Hf.
    + left. auto.
    + assert (Hwfc : trie_wf cur)
        by (eapply assoc_Forall with (P := trie_wf); eauto).
      destruct (IH cur Hwfc) as [[Hz El]|[Hnz (old & cur' & Ho & El & Hwfc' & Hobs' & Hframe)]];
        rewrite El; cbn [bind].
      * left. split; [assumption|].
        rewrite avl_write_back_same; [reflexivity|]. rewrite E. reflexivity.
      * right. split; [assumption|]. exists old. eexists.
        split; [assumption|]. split; [reflexivity|].
        assert (Hok'' : avl_ok (avl_write_back cs ch cur'))
          by (apply avl_ok_write_back; assumption).
        assert (Een : entries (avl_write_back cs ch cur') =
                      upd_entry ch cur' (entries cs))
          by (apply entries_write_back; apply Hok).
        split; [|split].
        -- apply trie_forall_node. split; [split; assumption|].
           rewrite Een. apply upd_entry_Forall; assumption.
        -- rewrite obs_cons by apply Hok''.
           rewrite Een, assoc_upd_entry_same, <- Hf. assumption.
        -- intros [|x key'] Hne; [reflexivity|].
           rewrite !obs_cons by (apply Hok'' || apply Hok). rewrite Een.
           destruct (Z.eq_dec x ch) as [->|Hx].
           ++ rewrite assoc_upd_entry_same, <- Hf. apply Hframe. congruence.
           ++ rewrite assoc_upd_entry_other by assumption. reflexivity.
Qed.

(** ** Reachable tries *)

Lemma run_op_ok t o :
  trie_wf t ->
  exists t',
    run_op t o = Some t' /\ trie_wf t' /\
    (forall k, fst (obs t' k) <> 0 <->
               fst (obs t k) <> 0 \/ In k (inserted_keys [o])).
Proof.
  intros Hwf. destruct o as [key sc q m|key|]; simpl.
  - destruct (patrie_insert_ok key sc q m t Hwf) as (t' & -> & Hwf' & Ho & Hfr).
    exists t'. splits; auto. intros k.
    destruct (list_eq_dec_Z k key) as [->|Hne].
    + rewrite Ho. simpl. intuition lia.
    + rewrite Hfr by assumption. intuition congruence.
  - destruct (patrie_lookup_ok key t Hwf)
      as [[Hz ->]|[Hnz (old & t' & Ho & -> & Hwf' & Ho' & Hfr)]]; cbn [bind].
    + exists t. splits; auto. intuition.
    + exists t'. splits; auto. intros k.
      destruct (list_eq_dec_Z k key) as [->|Hne].
      * rewrite Ho'. simpl. intuition.
      * rewrite Hfr by assumption. intuition.
  - exists t. splits; auto. intuition.
Qed.

Lemma inserted_keys_cons o ops :
  inserted_keys (o :: ops) = inserted_keys [o] ++ inserted_keys ops.
Proof. unfold inserted_keys. simpl. rewrite app_nil_r. reflexivity. Qed.

Lemma run_ops_ok ops :
  forall t, trie_wf t ->
  exists t',
    run_ops t ops = Some t' /\ trie_wf t' /\
    (forall k, fst (obs t' k) <> 0 <->
               fst (obs t k) <> 0 \/ In k (inserted_keys ops)).
Proof.
  induction ops as [|o ops IH]; intros t Hwf.
  - exists t. splits; auto. simpl. intuition.
  - destruct (run_op_ok t o Hwf) as (t1 & E1 & Hwf1 & H1).
    destruct (IH t1 Hwf1) as (t2 & E2 & Hwf2 & H2).
    exists t2. cbn [run_ops]. rewrite E1. cbn [bind]. splits; auto.
    intros k. rewrite (inserted_keys_cons o ops), in_app_iff, H2, H1. tauto.
Qed.

Lemma run_ops_new_ok ops :
  exists t,
    run_ops trie_node_new ops = Some t /\ trie_wf t /\
    (forall k, fst (obs t k) <> 0 <-> In k (inserted_keys ops)).
Proof.
  destruct (run_ops_ok ops _ trie_wf_new) as (t & E & Hwf & H).
  exists t. splits; auto. intros k. rewrite H, obs_trie_node_new. simpl.
  intuition.
Qed.

Lemma node_at_wf key :
  forall t n, trie_wf t -> node_at t key = Some n -> trie_wf n.
Proof.
  induction key as [|ch rest IH]; intros t n Hwf; simpl.
  - intros E. inv E. assumption.
  - destruct t as [tm ph cs].
    apply trie_forall_node in Hwf. destruct Hwf as [[Hok Htp] Hall].
    simpl in *.
    pose proof (avl_find_child_assoc cs ch (proj1 Hok)) as Hf.
    destruct (avl_find_child cs ch) as [|k c h l r]; [discriminate|].
    simpl in Hf. apply IH.
    eapply assoc_Forall with (P := trie_wf); eauto.
Qed.

Lemma obs_terminal_payload t key :
  trie_wf t -> (fst (obs t key) <> 0 <-> snd (obs t key) <> None).
Proof.
  intros Hwf. unfold obs.
  destruct (node_at t key) as [n|] eqn:E; simpl.
  - apply (node_at_wf _ _ _ Hwf) in E. destruct n as [tm ph cs].
    destruct E as [[_ Htp] _]. exact Htp.
  - intuition.
Qed.

Lemma obs_absent t key :
  trie_wf t -> fst (obs t key) = 0 -> obs t key = (0, None).
Proof.
  intros Hwf Hz. pose proof (obs_terminal_payload t key Hwf) as H.
  destruct (obs t key) as [tm [ph|]]; simpl in *; subst.
  - exfalso. apply (proj2 H); [discriminate | reflexivity].
  - reflexivity.
Qed.

(** ** Enumeration *)

Lemma lex_lt_irrefl a : ~ lex_lt a a.
Proof.
  unfold lex_lt. induction a as [|x a IH]; simpl; [discriminate|].
  rewrite Z.ltb_irrefl, Z.eqb_refl. simpl. assumption.
Qed.

Lemma lex_lt_cons x a b : lex_lt a b -> lex_lt (x :: a) (x :: b).
Proof.
  unfold lex_lt. simpl. intros ->. rewrite Z.eqb_refl.
  apply orb_true_r.
Qed.

Lemma lex_lt_head x y a b : x < y -> lex_lt (x :: a) (y :: b).
Proof.
  unfold lex_lt. simpl. intros H.
  destruct (Z.ltb_spec x y); [reflexivity | lia].
Qed.

Lemma fold_left_app_flat_map {A B : Type} (g : A -> list B) (es : list A) acc :
  fold_left (fun a e => a ++ g e) es acc = acc ++ flat_map g es.
Proof.
  revert acc. induction es as [|e es IH]; intros acc; simpl.
  - rewrite app_nil_r. reflexivity.
  - rewrite IH, app_assoc. reflexivity.
Qed.

Lemma tokens_node t ph cs :
  tokens (mkTrieNode t ph cs) =
  (if t =? 0 then [] else [([], ph)]) ++ flat_map below (entries cs).
Proof.
  cbn [tokens terminal p children]. f_equal.
  rewrite avl_inorder_fold.
  apply (fold_left_app_flat_map below (entries cs) []).
Qed.

Lemma trie_dfs_tokens n :
  forall ec,
    trie_dfs n ec =
    mkEnumCtx (buf ec) (calls ec ++ map (emit_under (buf ec)) (tokens n)).
Proof.
  induction n as [t ph cs IH] using TrieNode_entries_ind. intros ec.
  rewrite tokens_node. cbn [trie_dfs]. rewrite avl_inorder_fold.
  set (ec1 := if t =? 0 then ec
              else mkEnumCtx (buf ec) (calls ec ++ [(buf ec, ph)])).
  assert (G : forall es e0,
    Forall (fun e => forall ec, trie_dfs (snd e) ec =
       mkEnumCtx (buf ec) (calls ec ++ map (emit_under (buf ec)) (tokens (snd e)))) es ->
    fold_left (fun a e => visit_tmp_fn trie_dfs (fst e) (snd e) a) es e0 =
    mkEnumCtx (buf e0)
      (calls e0 ++ map (emit_under (buf e0)) (flat_map below es))).
  { clear. induction es as [|[k c] es IHes]; intros e0 HF.
    - simpl. rewrite app_nil_r. destruct e0; reflexivity.
    - inv HF. cbn [fold_left flat_map]. rewrite IHes by assumption.
      unfold visit_tmp_fn. cbn [fst snd]. rewrite H1. cbn [buf calls].
      rewrite removelast_last, map_app, app_assoc. f_equal. f_equal. f_equal.
      unfold below. cbn [fst snd]. rewrite map_map.
      apply map_ext. intros [tk q]. unfold emit_under, under. cbn [fst snd].
      rewrite <- app_assoc. reflexivity. }
  rewrite (G _ _ IH). subst ec1.
  destruct (t =? 0); cbn [buf calls app map].
  - reflexivity.
  - rewrite <- app_assoc. unfold emit_under at 2. cbn [fst snd].
    rewrite app_nil_r. reflexivity.
Qed.

Lemma patrie_enumerate_tokens n : patrie_enumerate n = tokens n.
Proof.
  unfold patrie_enumerate. rewrite trie_dfs_tokens. cbn [buf calls app].
  rewrite <- (map_id (tokens n)) at 2. apply map_ext.
  intros [k q]. reflexivity.
Qed.

Lemma In_flat_map_below k q es :
  In (k, q) (flat_map below es) <->
  exists x rest c, k = x :: rest /\ In (x, c) es /\ In (rest, q) (tokens c).
Proof.
  rewrite in_flat_map. split.
  - intros ([x c] & Hin & Hb). unfold below in Hb. apply in_map_iff in Hb.
    destruct Hb as ([rest q'] & E & Hr). inv E. simpl in *. eauto 6.
  - intros (x & rest & c & -> & Hin & Hr). exists (x, c). split; auto.
    unfold below. apply in_map_iff. exists (rest, q). auto.
Qed.

(** The walk visits exactly the keys that lead to a terminal node. *)
Lemma tokens_In n :
  trie_wf n ->
  forall k q, In (k, q) (tokens n) <-> fst (obs n k) <> 0 /\ snd (obs n k) = q.
Proof.
  induction n as [t ph cs IH] using TrieNode_entries_ind. intros Hwf k q.
  apply trie_forall_node in Hwf. destruct Hwf as [[Hok _] Hall]. simpl in Hok.
  rewrite tokens_node, in_app_iff, In_flat_map_below.
  destruct k as [|x rest].
  - rewrite obs_nil. cbn [fst snd terminal p]. split.
    + intros [H|(x & rest & c & E & _)]; [|discriminate].
      destruct (Z.eqb_spec t 0); [contradiction|].
      destruct H as [H|[]]. inv H. auto.
    + intros [Ht <-]. left. destruct (Z.eqb_spec t 0); [contradiction|].
      left. reflexivity.
  - rewrite obs_cons by apply Hok. split.
    + intros [H|(x' & rest' & c & E & Hin & Hr)].
      { destruct (t =? 0); [contradiction|]. destruct H as [H|[]]. inv H. }
      inv E. rewrite (In_assoc _ _ _ (proj1 Hok) Hin).
      rewrite Forall_forall in IH, Hall.
      apply (IH _ Hin (Hall _ Hin)). assumption.
    + intros H. right.
      destruct (assoc x (entries cs)) as [c|] eqn:E; [|simpl in H; tauto].
      apply assoc_In in E. exists x, rest, c. splits; auto.
      rewrite Forall_forall in IH, Hall.
      apply (IH _ E (Hall _ E)). assumption.
Qed.

Lemma StronglySorted_app {A : Type} (R : A -> A -> Prop) (a b : list A) :
  StronglySorted R a -> StronglySorted R b ->
  (forall x y, In x a -> In y b -> R x y) ->
  StronglySorted R (a ++ b).
Proof.
  induction a as [|x a IH]; simpl; intros Ha Hb Hab; auto.
  inv Ha. constructor.
  - apply IH; auto.
  - rewrite Forall_app. split; auto. apply Forall_forall. auto.
Qed.

Lemma StronglySorted_map {A B : Type} (R : A -> A -> Prop) (Q : B -> B -> Prop)
  (f : A -> B) (l : list A) :
  (forall x y, R x y -> Q (f x) (f y)) ->
  StronglySorted R l -> StronglySorted Q (map f l).
Proof.
  intros HRQ. induction 1 as [|x l Hs IH HF]; simpl; constructor; auto.
  rewrite Forall_map. revert HF. apply Forall_impl. auto.
Qed.

(** The walk emits the tokens in strictly ascending order. *)
Lemma tokens_sorted n :
  trie_wf n -> StronglySorted lex_lt (map fst (tokens n)).
Proof.
  induction n as [t ph cs IH] using TrieNode_entries_ind. intros Hwf.
  apply trie_forall_node in Hwf. destruct Hwf as [[Hok _] Hall]. simpl in Hok.
  rewrite tokens_node, map_app.
  assert (G : forall es,
    sorted_keys es ->
    Forall (fun e => StronglySorted lex_lt (map fst (tokens (snd e)))) es ->
    StronglySorted lex_lt (map fst (flat_map below es)) /\
    (forall k, In k (map fst (flat_map below es)) ->
       exists x rest, k = x :: rest /\ In x (map fst es))).
  { clear. unfold sorted_keys.
    induction es as [|[x c] es IHes]; intros Hs HF.
    - split; [constructor | intros k []].
    - inv Hs. inv HF. destruct (IHes H1 H4) as [Ssort Sfirst].
      cbn [flat_map]. rewrite map_app. unfold below at 1 3. cbn [fst snd].
      rewrite !map_map. cbn [under fst].
      assert (E : map (fun tk : list Z * option Phenotype => x :: fst tk) (tokens c)
                  = map (cons x) (map fst (tokens c)))
        by (rewrite map_map; reflexivity).
      rewrite E. split.
      + apply StronglySorted_app; auto.
        * eapply StronglySorted_map; [|eassumption]. apply lex_lt_cons.
        * intros a b Ha Hb. apply in_map_iff in Ha. destruct Ha as (a' & <- & _).
          destruct (Sfirst _ Hb) as (y & rest & -> & Hy).
          apply lex_lt_head. rewrite Forall_forall in H2. auto.
      + intros k Hk. apply in_app_iff in Hk. destruct Hk as [Hk|Hk].
        * apply in_map_iff in Hk. destruct Hk as (a' & <- & _).
          exists x, a'. simpl. auto.
        * destruct (Sfirst _ Hk) as (y & rest & -> & Hy).
          exists y, rest. simpl. auto. }
  destruct (G (entries cs)) as [Ssort Sfirst].
  - exact (proj1 Hok).
  - rewrite Forall_forall in *. intros e He. apply IH; [|apply Hall]; auto.
  - apply StronglySorted_app; auto.
    + destruct (t =? 0); simpl; repeat constructor.
    + intros a b Ha Hb. destruct (t =? 0); [contradiction|].
      destruct Ha as [<-|[]]. destruct (Sfirst _ Hb) as (y & rest & -> & _).
      reflexivity.
Qed.

Lemma StronglySorted_NoDup {A : Type} (R : A -> A -> Prop) (l : list A) :
  (forall x, ~ R x x) -> StronglySorted R l -> NoDup l.
Proof.
  intros Hirr. induction 1 as [|x l Hs IH HF]; constructor; auto.
  intros Hin. rewrite Forall_forall in HF. apply (Hirr x). auto.
Qed.

(** ** Repeated lookups *)

Lemma lookup_n_ok K t tm old :
  trie_wf t -> obs t K = (tm, Some old) -> tm <> 0 ->
  0 <= visits old < 2 ^ 64 ->
  forall n, exists r t',
    lookup_n n K t = Some (r, t') /\ trie_wf t' /\
    obs t' K = (tm, Some (mkPhenotype (score old)
                            ((visits old + Z.of_N n) mod 2 ^ 64)
                            (qual old) (meta old))) /\
    ((0 < n)%N -> r = snd (obs t' K)).
Proof.
  intros Hwf Ho Htm Hv n. induction n as [|n IH] using N.peano_ind.
  - exists None, t. splits; auto.
    + rewrite Ho. destruct old as [s v q' m']. simpl in *.
      rewrite Z.add_0_r, Z.mod_small by assumption. reflexivity.
    + lia.
  - destruct IH as (r & t' & E & Hwf' & Ho' & _).
    unfold lookup_n in *. rewrite N.iter_succ, E. cbn [bind].
    destruct (patrie_lookup_ok K t' Hwf')
      as [[Hz _]|[_ (cur & t'' & Hc & El & Hwf'' & Ho'' & _)]].
    + rewrite Ho' in Hz. simpl in Hz. contradiction.
    + rewrite Ho' in Hc, Ho''. simpl in Hc, Ho''. inv Hc.
      exists (Some (visit (mkPhenotype (score old)
                ((visits old + Z.of_N n) mod 2 ^ 64) (qual old) (meta old)))), t''.
      assert (Ev : visit (mkPhenotype (score old)
                     ((visits old + Z.of_N n) mod 2 ^ 64) (qual old) (meta old)) =
                   mkPhenotype (score old)
                     ((visits old + Z.of_N (N.succ n)) mod 2 ^ 64)
                     (qual old) (meta old)).
      { unfold visit. simpl. f_equal.
        rewrite Z.add_mod_idemp_l by lia. f_equal. lia. }
      rewrite Ev in *. splits; auto. intros _. rewrite Ho''. reflexivity.
Qed.

Lemma run_ops_visits K ops :
  forall t c, trie_wf t -> fst (obs t K) <> 0 ->
  visits_of (snd (obs t K)) = c mod 2 ^ 64 ->
  exists t',
    run_ops t ops = Some t' /\ trie_wf t' /\ fst (obs t' K) <> 0 /\
    visits_of (snd (obs t' K)) = (c + count_lookups K ops) mod 2 ^ 64.
Proof.
  induction ops as [|o ops IH]; intros t c Hwf Hnz Hv.
  - exists t. splits; auto. simpl. rewrite Z.add_0_r. assumption.
  - assert (Step : exists t1 d,
      run_op t o = Some t1 /\ trie_wf t1 /\ fst (obs t1 K) <> 0 /\
      visits_of (snd (obs t1 K)) = (c + d) mod 2 ^ 64 /\
      count_lookups K (o :: ops) = d + count_lookups K ops).
    { destruct o as [key sc q m|key|]; cbn [run_op count_lookups].
      - destruct (patrie_insert_ok key sc q m t Hwf) as (t1 & -> & Hwf1 & Ho & Hfr).
        exists t1, 0. rewrite Z.add_0_r. splits; auto.
        + destruct (list_eq_dec_Z K key) as [->|Hne].
          * rewrite Ho. simpl. lia.
          * rewrite Hfr; assumption.
        + destruct (list_eq_dec_Z K key) as [->|Hne].
          * rewrite Ho. simpl. assumption.
          * rewrite Hfr; assumption.
      - destruct (patrie_lookup_ok key t Hwf)
          as [[Hz ->]|[Hk (old & t1 & Ho & -> & Hwf1 & Ho1 & Hfr)]]; cbn [bind].
        + exists t, 0. rewrite Z.add_0_r. splits; auto.
          destruct (list_eq_dec_Z key K) as [->|_]; [contradiction | reflexivity].
        + destruct (list_eq_dec_Z key K) as [->|Hne].
          * exists t1, 1. splits; auto.
            -- rewrite Ho1. simpl. assumption.
            -- rewrite Ho1. rewrite Ho in Hv. simpl in *. rewrite Hv.
               apply Z.add_mod_idemp_l. lia.
          * exists t1, 0. rewrite Z.add_0_r.
            rewrite Hfr by congruence. splits; auto.
      - exists t, 0. rewrite Z.add_0_r. splits; auto. }
    destruct Step as (t1 & d & E1 & Hwf1 & Hnz1 & Hv1 & Ec).
    destruct (IH t1 (c + d) Hwf1 Hnz1 Hv1) as (t2 & E2 & Hwf2 & Hnz2 & Hv2).
    exists t2. cbn [run_ops]. rewrite E1. cbn [bind]. splits; auto.
    rewrite Hv2, Ec. f_equal. lia.
Qed.

(** ** The run of [main]

    The tokens [main] prints, in order, with the visits and flags shown:
    the looked-up key has one visit. *)
Example main_scenario :
  option_map (fun t => map shown (patrie_enumerate t))
    (run_ops trie_node_new main_ops) =
  Some [ (key_of_string "phenotype", 1, 3);
         (key_of_string "phenovalude", 0, 8);
         (key_of_string "phoneme", 0, 4) ].
Proof. vm_compute. reflexivity. Qed.

(** * The properties of the specification

    Each is stated on the tries the operations build from the empty trie
    ([run_ops trie_node_new ops]), or on every trie where it needs no more. *)

(** C1, counterexample: a key that was inserted and looked up once is
    inserted again; the counter is 1 after that insert, not 0. *)
Lemma roundtrip_visits_counterexample :
  exists t,
    run_ops trie_node_new
      [OpInsert key_a 0.5%float QUAL_NONE None; OpLookup key_a] = Some t /\
    key_a <> [] /\
    ~ roundtrip_as_stated t key_a 0.25%float QUAL_ANXIOUS (Some "again"%string).
Proof.
  eexists. split; [vm_compute; reflexivity|]. split; [discriminate|].
  intros (t' & ph & t'' & Hi & Hv & _).
  vm_compute in Hi. inv Hi. vm_compute in Hv. discriminate.
Qed.

(** C1, amended: on every reachable trie, inserting K with (score, flags,
    meta) succeeds and leaves the visits counter of K as it was, which is
    0 when K had not been inserted before; the lookup that follows returns
    the payload with the inserted score, flags and meta, and with the
    counter one higher (modulo 2^64). *)
Theorem insert_lookup_roundtrip ops t K sc q m :
  run_ops trie_node_new ops = Some t ->
  exists t' ph t'',
    patrie_insert t K sc q m = Some t' /\
    snd (obs t' K) = Some (mkPhenotype sc (visits_of (snd (obs t K))) q m) /\
    (~ In K (inserted_keys ops) -> visits_of (snd (obs t' K)) = 0) /\
    patrie_lookup t' K = Some (Some ph, t'') /\
    score ph = sc /\ qual ph = q /\ meta ph = m /\
    visits ph = (visits_of (snd (obs t K)) + 1) mod 2 ^ 64.
Proof.
  intros Hrun.
  destruct (run_ops_new_ok ops) as (t0 & E0 & Hwf & Hins).
  rewrite Hrun in E0. inv E0.
  destruct (patrie_insert_ok K sc q m t0 Hwf) as (t' & Ei & Hwf' & Ho & _).
  destruct (patrie_lookup_ok K t' Hwf')
    as [[Hz _]|[_ (old & t'' & Hold & El & _)]].
  { rewrite Ho in Hz. discriminate. }
  rewrite Ho in Hold. simpl in Hold. inv Hold.
  eexists t', _, t''. splits; eauto.
  - rewrite Ho. reflexivity.
  - intros Hnot. rewrite Ho. simpl.
    rewrite (obs_absent t0 K Hwf); [reflexivity|].
    destruct (Z.eq_dec (fst (obs t0 K)) 0) as [|Hne]; [assumption|].
    apply Hins in Hne. contradiction.
Qed.

Lemma insert_lookup_roundtrip_witness :
  run_ops trie_node_new ops_ab = Some (trie_of ops_ab) /\
  exists t' ph t'',
    patrie_insert (trie_of ops_ab) key_a 0.25%float QUAL_ANXIOUS None = Some t' /\
    snd (obs t' key_a) =
      Some (mkPhenotype 0.25%float
              (visits_of (snd (obs (trie_of ops_ab) key_a))) QUAL_ANXIOUS None) /\
    (~ In key_a (inserted_keys ops_ab) -> visits_of (snd (obs t' key_a)) = 0) /\
    patrie_lookup t' key_a = Some (Some ph, t'') /\
    score ph = 0.25%float /\ qual ph = QUAL_ANXIOUS /\ meta ph = None /\
    visits ph = (visits_of (snd (obs (trie_of ops_ab) key_a)) + 1) mod 2 ^ 64.
Proof.
  split; [vm_compute; reflexivity|].
  apply (insert_lookup_roundtrip ops_ab). vm_compute. reflexivity.
Defined.

(** C2: after any sequence of operations from the empty trie (so after any
    sequence of inserts, in any order), the keys [patrie_enumerate] passes
    to the visitor are in strictly ascending lexicographic order, none is
    passed twice, and they are exactly the inserted keys. *)
Theorem enumerate_sorted_complete ops :
  exists t,
    run_ops trie_node_new ops = Some t /\
    StronglySorted lex_lt (map fst (patrie_enumerate t)) /\
    NoDup (map fst (patrie_enumerate t)) /\
    (forall K, In K (map fst (patrie_enumerate t)) <-> In K (inserted_keys ops)).
Proof.
  destruct (run_ops_new_ok ops) as (t & E & Hwf & Hins).
  exists t. rewrite patrie_enumerate_tokens.
  pose proof (tokens_sorted t Hwf) as Hs. splits; auto.
  - eapply StronglySorted_NoDup; [apply lex_lt_irrefl | exact Hs].
  - intros K. rewrite <- Hins, in_map_iff. split.
    + intros ([k q] & <- & Hin). apply (tokens_In t Hwf) in Hin. apply Hin.
    + intros Hnz. exists (K, snd (obs t K)). split; [reflexivity|].
      apply (tokens_In t Hwf). auto.
Qed.

(** C3: after any sequence of operations from the empty trie (so after any
    sequence of inserts), at every trie node the child set is balanced at
    each of its subtrees, its cached heights are the heights, and its
    in-order traversal is strictly ascending in the key. *)
Theorem avl_balance_invariant ops :
  exists t,
    run_ops trie_node_new ops = Some t /\
    trie_forall (fun n => balanced (children n) /\
                          heights_ok (children n) /\
                          bf_bounded (children n) /\
                          StronglySorted Z.lt (keys (children n))) t.
Proof.
  destruct (run_ops_new_ok ops) as (t & E & Hwf & _).
  exists t. split; [assumption|].
  revert Hwf. apply trie_forall_impl.
  intros n [(Hb & Hh & Hbal) _]. splits; auto using balanced_bf_bounded.
Qed.

(** C4, counterexample: the counter is a [uint64_t]; the 2^64-th lookup
    brings it back to 0. *)
Lemma visits_wrap_counterexample : ~ visits_equal_calls (2 ^ 64)%N.
Proof.
  intros H.
  destruct (patrie_insert_ok key_a 0.5%float QUAL_NONE None _ trie_wf_new)
    as (t1 & Ei & Hwf1 & Ho & _).
  destruct (H t1 Ei) as (ph & t2 & El & Hv).
  rewrite obs_trie_node_new in Ho. cbn [snd visits_of] in Ho.
  destruct (lookup_n_ok key_a t1 1 _ Hwf1 Ho) with (n := (2 ^ 64)%N)
    as (r & t2' & El' & _ & Ho' & Hr); [lia | simpl; lia |].
  rewrite El in El'. inv El'.
  rewrite Ho' in Hr. cbn [snd] in Hr.
  assert (Hpos : (0 < 2 ^ 64)%N) by reflexivity.
  specialize (Hr Hpos). inv Hr. cbn [visits] in Hv.
  revert Hv. vm_compute. discriminate.
Qed.

(** C4, amended: a payload is created with [visits = 0]; from then on,
    whatever operations follow, the counter of K is the number of lookups
    of K among them, modulo 2^64: inserts, lookups of other keys and
    enumerations leave it alone.  So the [n]-th successive lookup of K
    returns the payload with [visits = n mod 2^64], which is [n] for
    [n < 2^64]. *)
Theorem visits_counts_lookups ops t K sc q m :
  run_ops trie_node_new ops = Some t ->
  ~ In K (inserted_keys ops) ->
  exists t1,
    patrie_insert t K sc q m = Some t1 /\
    snd (obs t1 K) = Some (mkPhenotype sc 0 q m) /\
    (forall ops', exists t2,
       run_ops t1 ops' = Some t2 /\
       visits_of (snd (obs t2 K)) = count_lookups K ops' mod 2 ^ 64) /\
    (forall n, exists r t2,
       lookup_n n K t1 = Some (r, t2) /\
       snd (obs t2 K) = Some (mkPhenotype sc (Z.of_N n mod 2 ^ 64) q m) /\
       ((0 < n)%N -> r = Some (mkPhenotype sc (Z.of_N n mod 2 ^ 64) q m)) /\
       (Z.of_N n < 2 ^ 64 -> visits_of (snd (obs t2 K)) = Z.of_N n)).
Proof.
  intros Hrun Hnot.
  destruct (run_ops_new_ok ops) as (t0 & E0 & Hwf & Hins).
  rewrite Hrun in E0. inv E0.
  destruct (patrie_insert_ok K sc q m t0 Hwf) as (t1 & Ei & Hwf1 & Ho & _).
  assert (Hz : obs t0 K = (0, None)).
  { apply obs_absent; [assumption|].
    destruct (Z.eq_dec (fst (obs t0 K)) 0) as [|Hne]; [assumption|].
    apply Hins in Hne. contradiction. }
  rewrite Hz in Ho. cbn [snd visits_of] in Ho.
  exists t1. splits; auto.
  - rewrite Ho. reflexivity.
  - intros ops'.
    destruct (run_ops_visits K ops' t1 0 Hwf1) as (t2 & E2 & _ & _ & Hv).
    + rewrite Ho. simpl. lia.
    + rewrite Ho. reflexivity.
    + exists t2. split; assumption.
  - intros n.
    destruct (lookup_n_ok K t1 1 _ Hwf1 Ho) with (n := n)
      as (r & t2 & El & _ & Ho2 & Hr); [lia | simpl; lia |].
    cbn [score visits qual meta] in Ho2. rewrite Z.add_0_l in Ho2.
    exists r, t2. rewrite Ho2 in *. cbn [snd visits_of visits] in *.
    splits; auto.
    intros Hn. apply Z.mod_small. lia.
Qed.

Lemma visits_counts_lookups_witness :
  run_ops trie_node_new ops_ab = Some (trie_of ops_ab) /\
  ~ In key_a (inserted_keys ops_ab) /\
  exists t1,
    patrie_insert (trie_of ops_ab) key_a 0.25%float QUAL_ANXIOUS None = Some t1 /\
    snd (obs t1 key_a) = Some (mkPhenotype 0.25%float 0 QUAL_ANXIOUS None) /\
    (forall ops', exists t2,
       run_ops t1 ops' = Some t2 /\
       visits_of (snd (obs t2 key_a)) = count_lookups key_a ops' mod 2 ^ 64) /\
    (forall n, exists r t2,
       lookup_n n key_a t1 = Some (r, t2) /\
       snd (obs t2 key_a) =
         Some (mkPhenotype 0.25%float (Z.of_N n mod 2 ^ 64) QUAL_ANXIOUS None) /\
       ((0 < n)%N ->
        r = Some (mkPhenotype 0.25%float (Z.of_N n mod 2 ^ 64) QUAL_ANXIOUS None)) /\
       (Z.of_N n < 2 ^ 64 -> visits_of (snd (obs t2 key_a)) = Z.of_N n)).
Proof.
  split; [vm_compute; reflexivity|].
  assert (Hnot : ~ In key_a (inserted_keys ops_ab))
    by (vm_compute; intros [H|[]]; discriminate).
  split; [exact Hnot|].
  apply (visits_counts_lookups ops_ab); [vm_compute; reflexivity | exact Hnot].
Defined.

(** C5: inserting a key that is already stored replaces score, flags and
    meta by the new values and keeps the visits counter; the lookup that
    follows returns the new values only. *)
Theorem reinsert_replaces ops t K sc q m :
  run_ops trie_node_new ops = Some t ->
  In K (inserted_keys ops) ->
  exists old t' t'',
    snd (obs t K) = Some old /\
    patrie_insert t K sc q m = Some t' /\
    obs t' K = (1, Some (mkPhenotype sc (visits old) q m)) /\
    patrie_lookup t' K =
      Some (Some (mkPhenotype sc ((visits old + 1) mod 2 ^ 64) q m), t'').
Proof.
  intros Hrun Hin.
  destruct (run_ops_new_ok ops) as (t0 & E0 & Hwf & Hins).
  rewrite Hrun in E0. inv E0.
  apply Hins in Hin.
  destruct (snd (obs t0 K)) as [old|] eqn:Eold.
  2:{ apply (obs_terminal_payload t0 K Hwf) in Hin. contradiction. }
  destruct (patrie_insert_ok K sc q m t0 Hwf) as (t' & Ei & Hwf' & Ho & _).
  rewrite Eold in Ho. cbn [visits_of] in Ho.
  destruct (patrie_lookup_ok K t' Hwf')
    as [[Hz _]|[_ (cur & t'' & Hc & El & _)]].
  { rewrite Ho in Hz. discriminate. }
  rewrite Ho in Hc. simpl in Hc. inv Hc.
  exists old, t', t''. splits; auto.
Qed.

Lemma reinsert_replaces_witness :
  run_ops trie_node_new ops_a_seen_twice = Some (trie_of ops_a_seen_twice) /\
  In key_a (inserted_keys ops_a_seen_twice) /\
  exists old t' t'',
    snd (obs (trie_of ops_a_seen_twice) key_a) = Some old /\
    patrie_insert (trie_of ops_a_seen_twice) key_a 0.25%float QUAL_ANXIOUS
      (Some "second"%string) = Some t' /\
    obs t' key_a =
      (1, Some (mkPhenotype 0.25%float (visits old) QUAL_ANXIOUS
                  (Some "second"%string))) /\
    patrie_lookup t' key_a =
      Some (Some (mkPhenotype 0.25%float ((visits old + 1) mod 2 ^ 64)
                    QUAL_ANXIOUS (Some "second"%string)), t'').
Proof.
  split; [vm_compute; reflexivity|].
  assert (Hin : In key_a (inserted_keys ops_a_seen_twice))
    by (left; reflexivity).
  split; [exact Hin|].
  apply (reinsert_replaces ops_a_seen_twice); [vm_compute; reflexivity | exact Hin].
Defined.

(** C6: a lookup of a key that was never inserted returns NULL, and for
    one of two reasons: a symbol of the key has no child on the way, or
    the walk ends at a node that is not terminal (as for a strict prefix
    of an inserted key). *)
Theorem lookup_never_inserted ops t K :
  run_ops trie_node_new ops = Some t ->
  ~ In K (inserted_keys ops) ->
  patrie_lookup t K = Some (None, t) /\
  (node_at t K = None \/ exists n, node_at t K = Some n /\ terminal n = 0).
Proof.
  intros Hrun Hnot.
  destruct (run_ops_new_ok ops) as (t0 & E0 & Hwf & Hins).
  rewrite Hrun in E0. inv E0.
  assert (Hz : fst (obs t0 K) = 0).
  { destruct (Z.eq_dec (fst (obs t0 K)) 0) as [|Hne]; [assumption|].
    apply Hins in Hne. contradiction. }
  split.
  - destruct (patrie_lookup_ok K t0 Hwf) as [[_ El]|[Hnz _]];
      [assumption | contradiction].
  - unfold obs in Hz. destruct (node_at t0 K) as [n|]; [right | left]; eauto.
Qed.

Lemma lookup_never_inserted_witness :
  run_ops trie_node_new ops_ab = Some (trie_of ops_ab) /\
  ~ In key_a (inserted_keys ops_ab) /\
  patrie_lookup (trie_of ops_ab) key_a = Some (None, trie_of ops_ab) /\
  (node_at (trie_of ops_ab) key_a = None \/
   exists n, node_at (trie_of ops_ab) key_a = Some n /\ terminal n = 0).
Proof.
  split; [vm_compute; reflexivity|].
  assert (Hnot : ~ In key_a (inserted_keys ops_ab))
    by (vm_compute; intros [H|[]]; discriminate).
  split; [exact Hnot|].
  apply (lookup_never_inserted ops_ab); [vm_compute; reflexivity | exact Hnot].
Defined.

(** C7: in every trie reached from the empty trie by inserts, lookups and
    enumerations, every node has a payload exactly when it is marked
    terminal, and no lookup dereferences a NULL payload. *)
Theorem terminal_iff_payload ops :
  exists t,
    run_ops trie_node_new ops = Some t /\
    trie_forall (fun n => terminal n <> 0 <-> p n <> None) t /\
    (forall K, exists res t', patrie_lookup t K = Some (res, t')).
Proof.
  destruct (run_ops_new_ok ops) as (t & E & Hwf & _).
  exists t. splits; auto.
  - revert Hwf. apply trie_forall_impl. intros n [_ H]. exact H.
  - intros K.
    destruct (patrie_lookup_ok K t Hwf)
      as [[_ El]|[_ (old & t' & _ & El & _)]]; eauto.
Qed.

(** C8: when the symbol is already in the child set, the find-or-insert
    step of [patrie_insert] returns the entry that is there and leaves the
    child set as it is: the same children, shape and cached heights. *)
Theorem insert_or_get_present (cs : AVLChild TrieNode) (ch : Z) :
  bst cs -> In ch (keys cs) ->
  exists c h l r,
    In (ch, c) (entries cs) /\
    avl_find_child cs ch = ANode ch c h l r /\
    insert_or_get cs ch = Some (cs, ANode ch c h l r).
Proof.
  intros Hb Hin.
  pose proof (avl_find_child_assoc cs ch Hb) as Hf.
  pose proof (avl_find_child_key cs ch) as Hk.
  unfold insert_or_get.
  destruct (avl_find_child cs ch) as [|k c h l r]; simpl in Hf.
  - symmetry in Hf. apply assoc_None in Hf. contradiction.
  - subst k. exists c, h, l, r. splits; auto.
    apply assoc_In. symmetry. assumption.
Qed.

Lemma insert_or_get_present_witness :
  bst abc_children /\ In 99 (keys abc_children) /\
  exists c h l r,
    In (99, c) (entries abc_children) /\
    avl_find_child abc_children 99 = ANode 99 c h l r /\
    insert_or_get abc_children 99 = Some (abc_children, ANode 99 c h l r).
Proof.
  assert (Hb : bst abc_children)
    by (unfold bst, sorted_keys; simpl; repeat constructor).
  assert (Hin : In 99 (keys abc_children)) by (simpl; auto).
  split; [exact Hb|]. split; [exact Hin|].
  apply (insert_or_get_present abc_children 99 Hb Hin).
Defined.

(** C9: inserting the empty key marks the root terminal and stores the
    payload there; the lookup of the empty key that follows returns it,
    and the enumeration passes the empty key first, every other token
    being non-empty. *)
Theorem empty_key_root t sc q m :
  exists t',
    patrie_insert t [] sc q m = Some t' /\
    terminal t' = 1 /\
    p t' = Some (mkPhenotype sc (visits_of (p t)) q m) /\
    children t' = children t /\
    (exists t'',
       patrie_lookup t' [] =
       Some (Some (mkPhenotype sc ((visits_of (p t) + 1) mod 2 ^ 64) q m), t'')) /\
    (exists rest,
       patrie_enumerate t' =
         ([], Some (mkPhenotype sc (visits_of (p t)) q m)) :: rest /\
       Forall (fun tk => fst tk <> []) rest).
Proof.
  destruct t as [tm ph cs]. eexists. split; [reflexivity|].
  assert (E : store_phenotype (mkTrieNode tm ph cs) sc q m =
              mkTrieNode 1 (Some (mkPhenotype sc (visits_of ph) q m)) cs).
  { unfold store_phenotype, phenotype_new. rewrite !strdup_id.
    destruct ph; reflexivity. }
  rewrite E. cbn [terminal p children]. splits; auto.
  - eexists. reflexivity.
  - rewrite patrie_enumerate_tokens, tokens_node. simpl.
    eexists. split; [reflexivity|].
    apply Forall_forall. intros [k pl] Hin.
    apply In_flat_map_below in Hin.
    destruct Hin as (x & rest & c & -> & _). discriminate.
Qed.

(** C10: a lookup that returns NULL leaves the trie as it was: every node,
    child set, terminal mark and payload, the visits counters included. *)
Theorem failed_lookup_unchanged t K t' :
  patrie_lookup t K = Some (None, t') -> t' = t.
Proof.
  revert t t'.
  induction K as [|ch rest IH]; intros [tm ph cs] t'; cbn [patrie_lookup].
  - destruct (tm =? 0); [intros H; inv H; reflexivity|].
    destruct ph; cbn [bind]; discriminate.
  - destruct (avl_find_child cs ch) as [|k cur h l r] eqn:E.
    + intros H. inv H. reflexivity.
    + destruct (patrie_lookup cur rest) as [[res cur']|] eqn:El; cbn [bind];
        [|discriminate].
      intros H. inv H. apply IH in El. subst cur'.
      rewrite avl_write_back_same; [reflexivity|]. rewrite E. reflexivity.
Qed.

Lemma failed_lookup_unchanged_witness :
  patrie_lookup (trie_of ops_ab) key_a = Some (None, trie_of ops_ab) /\
  trie_of ops_ab = trie_of ops_ab.
Proof.
  assert (H : patrie_lookup (trie_of ops_ab) key_a = Some (None, trie_of ops_ab))
    by (vm_compute; reflexivity).
  split; [exact H|].
  apply (failed_lookup_unchanged (trie_of ops_ab) key_a (trie_of ops_ab) H).
Defined.

(** * Further properties of the code *)

(** ** Child sets *)

(** X1: on a child set whose in-order keys ascend, [avl_find_child]
    returns NULL exactly for the keys that are not there, and otherwise
    the entry of that key, with the child stored for it. *)
Theorem avl_find_child_correct {T : Type} (t : AVLChild T) (k : Z) :
  bst t ->
  (avl_find_child t k = NULL <-> ~ In k (keys t)) /\
  (forall c, child_of (avl_find_child t k) = Some c <-> In (k, c) (entries t)) /\
  (forall k' c h l r, avl_find_child t k = ANode k' c h l r -> k' = k).
Proof.
  intros Hb. pose proof (avl_find_child_assoc t k Hb) as Hf.
  pose proof (avl_find_child_key t k) as Hk. splits.
  - unfold keys. rewrite <- assoc_None, <- Hf.
    destruct (avl_find_child t k); simpl; split; congruence.
  - intros c. rewrite Hf. split; [apply assoc_In | apply In_assoc; exact Hb].
  - intros k' c h l r E. rewrite E in Hk. exact Hk.
Qed.

(** X2: on a well-formed child set [avl_insert_child] dereferences no
    NULL pointer and returns a well-formed child set; a search for the key
    then finds the child given, a search for any other key finds what it
    found before; the key is the only new one, and the height grows by one
    at most. *)
Theorem avl_insert_find_roundtrip {T : Type} (t : AVLChild T) (k : Z) (c : T) :
  avl_ok t ->
  exists t',
    avl_insert_child t k c = Some t' /\
    avl_ok t' /\
    child_of (avl_find_child t' k) = Some c /\
    (forall x, x <> k ->
       child_of (avl_find_child t' x) = child_of (avl_find_child t x)) /\
    (forall x, In x (keys t') <-> x = k \/ In x (keys t)) /\
    (ht t' = ht t \/ ht t' = ht t + 1) /\
    height_avl t' = ht t'.
Proof.
  intros Hok.
  destruct (avl_insert_child_ok t k c Hok) as (t' & E & Hh & Hbal & Ee & Hht).
  assert (Hb' : bst t').
  { unfold bst. rewrite Ee. apply ins_entry_sorted. apply Hok. }
  exists t'. splits; auto.
  - unfold avl_ok. auto.
  - rewrite avl_find_child_assoc, Ee by assumption.
    apply assoc_ins_entry_same.
  - intros x Hx. rewrite !avl_find_child_assoc, Ee by (assumption || apply Hok).
    apply assoc_ins_entry_other. assumption.
  - intros x. unfold keys. rewrite Ee. apply ins_entry_keys.
  - destruct Hht as [?|[? _]]; auto.
  - apply height_avl_ht. assumption.
Qed.

Lemma avl_insert_find_roundtrip_witness :
  avl_ok abc_children /\
  exists t',
    avl_insert_child abc_children 100 trie_node_new = Some t' /\
    avl_ok t' /\
    child_of (avl_find_child t' 100) = Some trie_node_new /\
    (forall x, x <> 100 ->
       child_of (avl_find_child t' x) =
       child_of (avl_find_child abc_children x)) /\
    (forall x, In x (keys t') <-> x = 100 \/ In x (keys abc_children)) /\
    (ht t' = ht abc_children \/ ht t' = ht abc_children + 1) /\
    height_avl t' = ht t'.
Proof.
  assert (Hok : avl_ok abc_children).
  { split; [|split].
    - unfold bst, sorted_keys. simpl. repeat constructor.
    - simpl. repeat split; reflexivity.
    - simpl. repeat split; lia. }
  split; [exact Hok|].
  apply (avl_insert_find_roundtrip abc_children 100 trie_node_new Hok).
Defined.

(** X3: called with a key that is already there, [avl_insert_child]
    overwrites the child pointer of that entry and changes nothing else:
    keys, shape and cached heights stay, and no rotation happens.  The
    child stored before is no longer reachable from the set. *)
Theorem avl_insert_child_overwrites {T : Type} (t : AVLChild T) (k : Z) (c : T) :
  avl_ok t -> In k (keys t) ->
  exists t',
    avl_insert_child t k c = Some t' /\
    t' = avl_write_back t k c /\
    entries t' = upd_entry k c (entries t) /\
    keys t' = keys t /\
    ht t' = ht t /\ height_avl t' = height_avl t /\
    child_of (avl_find_child t' k) = Some c.
Proof.
  intros Hok Hin. exists (avl_write_back t k c).
  pose proof (entries_write_back t k c (proj1 Hok)) as Ee.
  pose proof (avl_ok_write_back t k c Hok) as Hok'.
  splits; auto.
  - apply avl_insert_child_present; assumption.
  - unfold keys. rewrite Ee. apply upd_entry_keys.
  - apply ht_write_back.
  - rewrite !height_avl_ht by (apply Hok || apply Hok'). apply ht_write_back.
  - rewrite avl_find_child_assoc, Ee, assoc_upd_entry_same by apply Hok'.
    destruct (assoc k (entries t)) eqn:E; [reflexivity|].
    apply assoc_None in E. contradiction.
Qed.

Lemma avl_insert_child_overwrites_witness :
  avl_ok abc_children /\ In 97 (keys abc_children) /\
  exists t',
    avl_insert_child abc_children 97 (mkTrieNode 1 None NULL) = Some t' /\
    t' = avl_write_back abc_children 97 (mkTrieNode 1 None NULL) /\
    entries t' = upd_entry 97 (mkTrieNode 1 None NULL) (entries abc_children) /\
    keys t' = keys abc_children /\
    ht t' = ht abc_children /\ height_avl t' = height_avl abc_children /\
    child_of (avl_find_child t' 97) = Some (mkTrieNode 1 None NULL).
Proof.
  assert (Hok : avl_ok abc_children).
  { split; [|split].
    - unfold bst, sorted_keys. simpl. repeat constructor.
    - simpl. repeat split; reflexivity.
    - simpl. repeat split; lia. }
  assert (Hin : In 97 (keys abc_children)) by (simpl; auto).
  split; [exact Hok|]. split; [exact Hin|].
  apply (avl_insert_child_overwrites abc_children 97 _ Hok Hin).
Defined.

(** X4: [rotate_right] keeps the in-order sequence of the entries, and on
    a set whose cached heights are right it keeps them right; [rotate_left]
    then gives back the set it started from. *)
Theorem rotate_right_undone {T : Type} (y x : AVLChild T) :
  heights_ok y -> rotate_right y = Some x ->
  entries x = entries y /\ heights_ok x /\ rotate_left x = Some y.
Proof.
  intros Hh E.
  destruct y as [|yk yc yh [|xk xc xh xl T2] yr]; try discriminate.
  cbn [rotate_right update_height] in E. inv E.
  cbn [heights_ok] in Hh. destruct Hh as (Ey & (Ex & Hxl & HT2) & Hyr).
  cbn [height_avl]. rewrite !max_Zmax.
  rewrite !(height_avl_ht xl), !(height_avl_ht T2), !(height_avl_ht yr)
    by assumption.
  splits.
  - rewrite !entries_node, <- app_assoc. reflexivity.
  - cbn [heights_ok ht]. splits; auto.
  - cbn [rotate_left update_height height_avl]. rewrite !max_Zmax.
    rewrite !(height_avl_ht xl), !(height_avl_ht T2), !(height_avl_ht yr)
      by assumption.
    subst xh yh. cbn [ht]. reflexivity.
Qed.

Lemma rotate_right_undone_witness :
  heights_ok abc_children /\
  rotate_right abc_children =
    Some (ANode 97 trie_node_new 3 NULL
            (ANode 98 trie_node_new 2 NULL (ANode 99 trie_node_new 1 NULL NULL))) /\
  entries (ANode 97 trie_node_new 3 NULL
            (ANode 98 trie_node_new 2 NULL (ANode 99 trie_node_new 1 NULL NULL)))
    = entries abc_children /\
  heights_ok (ANode 97 trie_node_new 3 NULL
            (ANode 98 trie_node_new 2 NULL (ANode 99 trie_node_new 1 NULL NULL))) /\
  rotate_left (ANode 97 trie_node_new 3 NULL
            (ANode 98 trie_node_new 2 NULL (ANode 99 trie_node_new 1 NULL NULL)))
    = Some abc_children.
Proof.
  assert (Hh : heights_ok abc_children) by (simpl; repeat split; reflexivity).
  split; [exact Hh|]. split; [reflexivity|].
  apply (rotate_right_undone abc_children _ Hh). reflexivity.
Defined.

(** X5: the same for [rotate_left], undone by [rotate_right]. *)
Theorem rotate_left_undone {T : Type} (x y : AVLChild T) :
  heights_ok x -> rotate_left x = Some y ->
  entries y = entries x /\ heights_ok y /\ rotate_right y = Some x.
Proof.
  intros Hh E.
  destruct x as [|xk xc xh xl [|yk yc yh T2 yr]]; try discriminate.
  cbn [rotate_left update_height] in E. inv E.
  cbn [heights_ok] in Hh. destruct Hh as (Ex & Hxl & (Ey & HT2 & Hyr)).
  cbn [height_avl]. rewrite !max_Zmax.
  rewrite !(height_avl_ht xl), !(height_avl_ht T2), !(height_avl_ht yr)
    by assumption.
  splits.
  - rewrite !entries_node, <- app_assoc. reflexivity.
  - cbn [heights_ok ht]. splits; auto.
  - cbn [rotate_right update_height height_avl]. rewrite !max_Zmax.
    rewrite !(height_avl_ht xl), !(height_avl_ht T2), !(height_avl_ht yr)
      by assumption.
    subst xh yh. cbn [ht]. reflexivity.
Qed.

Lemma rotate_left_undone_witness :
  heights_ok abc_children /\
  rotate_left abc_children =
    Some (ANode 99 trie_node_new 3
            (ANode 98 trie_node_new 2 (ANode 97 trie_node_new 1 NULL NULL) NULL)
            NULL) /\
  entries (ANode 99 trie_node_new 3
            (ANode 98 trie_node_new 2 (ANode 97 trie_node_new 1 NULL NULL) NULL)
            NULL) = entries abc_children /\
  heights_ok (ANode 99 trie_node_new 3
            (ANode 98 trie_node_new 2 (ANode 97 trie_node_new 1 NULL NULL) NULL)
            NULL) /\
  rotate_right (ANode 99 trie_node_new 3
            (ANode 98 trie_node_new 2 (ANode 97 trie_node_new 1 NULL NULL) NULL)
            NULL) = Some abc_children.
Proof.
  assert (Hh : heights_ok abc_children) by (simpl; repeat split; reflexivity).
  split; [exact Hh|]. split; [reflexivity|].
  apply (rotate_left_undone abc_children _ Hh). reflexivity.
Defined.

Lemma avl_find_child_correct_witness :
  bst abc_children /\
  (avl_find_child abc_children 99 = NULL <-> ~ In 99 (keys abc_children)) /\
  (forall c, child_of (avl_find_child abc_children 99) = Some c <->
             In (99, c) (entries abc_children)) /\
  (forall k' c h l r,
     avl_find_child abc_children 99 = ANode k' c h l r -> k' = 99).
Proof.
  assert (Hb : bst abc_children)
    by (unfold bst, sorted_keys; simpl; repeat constructor).
  split; [exact Hb|].
  apply (avl_find_child_correct abc_children 99 Hb).
Defined.

Lemma avl_size_node {T : Type} k (c : T) h l r :
  avl_size (ANode k c h l r) = avl_size l + 1 + avl_size r.
Proof.
  unfold avl_size. rewrite entries_node, length_app. simpl. lia.
Qed.

Lemma avl_size_nonneg {T : Type} (t : AVLChild T) : 0 <= avl_size t.
Proof. unfold avl_size. lia. Qed.

Lemma balanced_size {T : Type} (t : AVLChild T) :
  balanced t -> 2 ^ ht t <= (avl_size t + 1) ^ 2.
Proof.
  induction t as [|k c h l IHl r IHr]; intros Hb.
  - reflexivity.
  - cbn [balanced] in Hb. destruct Hb as (B & Hbl & Hbr).
    specialize (IHl Hbl). specialize (IHr Hbr).
    rewrite avl_size_node. cbn [ht].
    pose proof (ht_nonneg l). pose proof (ht_nonneg r).
    pose proof (avl_size_nonneg l). pose proof (avl_size_nonneg r).
    replace (avl_size l + 1 + avl_size r + 1)
      with ((avl_size l + 1) + (avl_size r + 1)) by lia.
    set (a := avl_size l + 1) in *. set (b := avl_size r + 1) in *.
    assert (Ha : 1 <= a) by (subst a; lia).
    assert (Hb' : 1 <= b) by (subst b; lia).
    clearbody a b.
    rewrite !Z.pow_2_r in *.
    assert (Hab : forall X, 0 <= X -> X <= a * a -> X <= b * b -> X <= a * b).
    { intros X HX HXa HXb. destruct (Z.le_gt_cases a b); nia. }
    destruct (Z.eq_dec (ht l) (ht r)) as [E|NE].
    + rewrite E, Z.max_id in *. rewrite Z.pow_add_r by lia.
      change (2 ^ 1) with 2. nia.
    + destruct (Z.lt_ge_cases (ht l) (ht r)).
      * assert (E : ht r = ht l + 1) by lia.
        rewrite Z.max_r by lia. rewrite E in *.
        rewrite !Z.pow_add_r in * by lia. change (2 ^ 1) with 2 in *.
        assert (0 < 2 ^ ht l) by (apply Z.pow_pos_nonneg; lia).
        specialize (Hab (2 ^ ht l)). nia.
      * assert (E : ht l = ht r + 1) by lia.
        rewrite Z.max_l by lia. rewrite E in *.
        rewrite !Z.pow_add_r in * by lia. change (2 ^ 1) with 2 in *.
        assert (0 < 2 ^ ht r) by (apply Z.pow_pos_nonneg; lia).
        specialize (Hab (2 ^ ht r)). nia.
Qed.

(** X6: a well-formed child set of [n] entries is shallow: two to the
    power of its height is at most [(n + 1)^2], so the height, which is
    also the cached height of the root, is at most [log2 ((n + 1)^2)]. *)
Theorem avl_height_logarithmic {T : Type} (t : AVLChild T) :
  avl_ok t ->
  2 ^ ht t <= (avl_size t + 1) ^ 2 /\
  ht t <= Z.log2 ((avl_size t + 1) ^ 2) /\
  height_avl t = ht t.
Proof.
  intros (Hb & Hh & Hbal).
  pose proof (balanced_size t Hbal) as Hs.
  pose proof (avl_size_nonneg t). pose proof (ht_nonneg t).
  splits; auto.
  - apply Z.log2_le_pow2; [nia | assumption].
  - apply height_avl_ht. assumption.
Qed.

Lemma avl_height_logarithmic_witness :
  avl_ok abc_children /\
  2 ^ ht abc_children <= (avl_size abc_children + 1) ^ 2 /\
  ht abc_children <= Z.log2 ((avl_size abc_children + 1) ^ 2) /\
  height_avl abc_children = ht abc_children.
Proof.
  assert (Hok : avl_ok abc_children).
  { split; [|split].
    - unfold bst, sorted_keys. simpl. repeat constructor.
    - simpl. repeat split; reflexivity.
    - simpl. repeat split; lia. }
  split; [exact Hok|].
  apply (avl_height_logarithmic abc_children Hok).
Defined.

(** ** The trie as a finite map *)

Lemma lookup_result_obs t K :
  trie_wf t ->
  exists t', patrie_lookup t K = Some (option_map visit (snd (obs t K)), t').
Proof.
  intros Hwf.
  destruct (patrie_lookup_ok K t Hwf)
    as [[Hz El]|[_ (old & t' & Ho & El & _)]].
  - rewrite (obs_absent t K Hwf Hz). simpl. eauto.
  - rewrite Ho. simpl. eauto.
Qed.

Lemma run_op_abs t o (s : store) :
  trie_wf t -> (forall K, snd (obs t K) = s K) ->
  exists t',
    run_op t o = Some t' /\ trie_wf t' /\
    (forall K, snd (obs t' K) = abs_op s o K).
Proof.
  intros Hwf Hs. destruct o as [key sc q m|key|]; cbn [run_op abs_op].
  - destruct (patrie_insert_ok key sc q m t Hwf) as (t' & -> & Hwf' & Ho & Hfr).
    exists t'. splits; auto. intros K. unfold store_set.
    destruct (list_eq_dec_Z K key) as [->|Hne].
    + rewrite Ho, Hs. reflexivity.
    + rewrite Hfr by assumption. apply Hs.
  - destruct (patrie_lookup_ok key t Hwf)
      as [[Hz ->]|[Hnz (old & t' & Ho & -> & Hwf' & Ho' & Hfr)]]; cbn [bind].
    + exists t. splits; auto. intros K.
      rewrite <- (Hs key), (obs_absent t key Hwf Hz). simpl. apply Hs.
    + exists t'. splits; auto. intros K.
      rewrite <- (Hs key), Ho. unfold store_set.
      destruct (list_eq_dec_Z K key) as [->|Hne].
      * rewrite Ho'. reflexivity.
      * rewrite Hfr by assumption. apply Hs.
  - exists t. splits; auto.
Qed.

Lemma run_ops_abs ops :
  forall t (s : store),
    trie_wf t -> (forall K, snd (obs t K) = s K) ->
    exists t',
      run_ops t ops = Some t' /\ trie_wf t' /\
      (forall K, snd (obs t' K) = fold_left abs_op ops s K).
Proof.
  induction ops as [|o ops IH]; intros t s Hwf Hs.
  - exists t. splits; auto.
  - destruct (run_op_abs t o s Hwf Hs) as (t1 & E1 & Hwf1 & Hs1).
    destruct (IH t1 _ Hwf1 Hs1) as (t2 & E2 & Hwf2 & Hs2).
    exists t2. cbn [run_ops fold_left]. rewrite E1. cbn [bind]. auto.
Qed.

Lemma run_ops_new_abs ops :
  exists t,
    run_ops trie_node_new ops = Some t /\ trie_wf t /\
    (forall K, snd (obs t K) = abs_run ops K).
Proof.
  apply run_ops_abs; [apply trie_wf_new|].
  intros K. rewrite obs_trie_node_new. reflexivity.
Qed.

(** X7: the trie is a finite map from keys to payloads.  After any
    sequence of operations from the empty trie, the payload a key leads to
    is the one the map holds for it, and [patrie_lookup] returns it with
    one more visit, or NULL where the map holds none. *)
Theorem trie_refines_store ops :
  exists t,
    run_ops trie_node_new ops = Some t /\
    (forall K, snd (obs t K) = abs_run ops K) /\
    (forall K, exists t',
       patrie_lookup t K = Some (option_map visit (abs_run ops K), t')).
Proof.
  destruct (run_ops_new_abs ops) as (t & E & Hwf & Hs).
  exists t. splits; auto. intros K. rewrite <- Hs.
  apply lookup_result_obs. assumption.
Qed.

(** X8: no operation removes a key: a key inserted at any point is found
    by a lookup after whatever operations followed. *)
Theorem inserted_key_found ops t K :
  run_ops trie_node_new ops = Some t ->
  In K (inserted_keys ops) ->
  exists ph t', patrie_lookup t K = Some (Some ph, t').
Proof.
  intros Hrun Hin.
  destruct (run_ops_new_ok ops) as (t0 & E0 & Hwf & Hins).
  rewrite Hrun in E0. inv E0.
  apply Hins in Hin.
  destruct (patrie_lookup_ok K t0 Hwf)
    as [[Hz _]|[_ (old & t' & _ & El & _)]]; [contradiction|]. eauto.
Qed.

Lemma inserted_key_found_witness :
  run_ops trie_node_new ops_a_seen_twice = Some (trie_of ops_a_seen_twice) /\
  In key_a (inserted_keys ops_a_seen_twice) /\
  exists ph t',
    patrie_lookup (trie_of ops_a_seen_twice) key_a = Some (Some ph, t').
Proof.
  split; [vm_compute; reflexivity|].
  assert (Hin : In key_a (inserted_keys ops_a_seen_twice)) by (left; reflexivity).
  split; [exact Hin|].
  apply (inserted_key_found ops_a_seen_twice); [vm_compute; reflexivity | exact Hin].
Defined.

(** X9: an insert of one key leaves every other key alone: what the
    other key leads to is the same, and so is what a lookup of it
    returns. *)
Theorem insert_leaves_other_keys ops t K sc q m t' K' :
  run_ops trie_node_new ops = Some t ->
  patrie_insert t K sc q m = Some t' ->
  K' <> K ->
  obs t' K' = obs t K' /\
  option_map fst (patrie_lookup t' K') = option_map fst (patrie_lookup t K').
Proof.
  intros Hrun Hi Hne.
  destruct (run_ops_new_ok ops) as (t0 & E0 & Hwf & _).
  rewrite Hrun in E0. inv E0.
  destruct (patrie_insert_ok K sc q m t0 Hwf) as (t1 & Ei & Hwf' & _ & Hfr).
  rewrite Hi in Ei. inv Ei.
  specialize (Hfr K' Hne). split; [assumption|].
  destruct (lookup_result_obs t1 K' Hwf') as (x1 & ->).
  destruct (lookup_result_obs t0 K' Hwf) as (x0 & ->).
  simpl. rewrite Hfr. reflexivity.
Qed.

Lemma insert_leaves_other_keys_witness :
  run_ops trie_node_new ops_ab = Some (trie_of ops_ab) /\
  patrie_insert (trie_of ops_ab) key_a 0.25%float QUAL_ANXIOUS None =
    Some (trie_of (ops_ab ++ [OpInsert key_a 0.25%float QUAL_ANXIOUS None])) /\
  key_ab <> key_a /\
  obs (trie_of (ops_ab ++ [OpInsert key_a 0.25%float QUAL_ANXIOUS None])) key_ab =
    obs (trie_of ops_ab) key_ab /\
  option_map fst
    (patrie_lookup
       (trie_of (ops_ab ++ [OpInsert key_a 0.25%float QUAL_ANXIOUS None])) key_ab) =
  option_map fst (patrie_lookup (trie_of ops_ab) key_ab).
Proof.
  split; [vm_compute; reflexivity|].
  split; [vm_compute; reflexivity|].
  split; [discriminate|].
  apply (insert_leaves_other_keys ops_ab _ key_a 0.25%float QUAL_ANXIOUS None);
    [vm_compute; reflexivity | vm_compute; reflexivity | discriminate].
Defined.

(** ** Order of the enumeration *)

Lemma lex_lt_asym a : forall b, lex_lt a b -> lex_lt b a -> False.
Proof.
  unfold lex_lt. induction a as [|x a IH]; intros [|y b]; simpl;
    try discriminate.
  intros H1 H2.
  destruct (Z.ltb_spec x y), (Z.ltb_spec y x); simpl in *;
    destruct (Z.eqb_spec x y); destruct (Z.eqb_spec y x);
    try lia; try discriminate.
  simpl in *. eauto.
Qed.

Lemma sorted_same_elements {A : Type} (R : A -> A -> Prop) :
  (forall x y, R x y -> R y x -> False) ->
  forall l1 l2,
    StronglySorted R l1 -> StronglySorted R l2 ->
    (forall x, In x l1 <-> In x l2) -> l1 = l2.
Proof.
  intros Hasym. induction l1 as [|a l1 IH]; intros [|b l2] H1 H2 Hsame.
  - reflexivity.
  - exfalso. apply (proj2 (Hsame b)). left. reflexivity.
  - exfalso. apply (proj1 (Hsame a)). left. reflexivity.
  - apply StronglySorted_inv in H1. destruct H1 as [S1 F1].
    apply StronglySorted_inv in H2. destruct H2 as [S2 F2].
    rewrite Forall_forall in F1, F2.
    assert (a = b).
    { destruct (proj1 (Hsame a) (or_introl eq_refl)) as [E|Ha]; [auto|].
      destruct (proj2 (Hsame b) (or_introl eq_refl)) as [E|Hb]; [auto|].
      exfalso. eapply Hasym; eauto. }
    subst b. f_equal. apply IH; auto.
    intros x. split; intros Hx.
    + destruct (proj1 (Hsame x) (or_intror Hx)) as [E|?]; [|assumption].
      subst x. exfalso. eapply Hasym; eauto.
    + destruct (proj2 (Hsame x) (or_intror Hx)) as [E|?]; [|assumption].
      subst x. exfalso. eapply Hasym; eauto.
Qed.

Lemma tokens_token_sorted t :
  trie_wf t -> StronglySorted token_lt (patrie_enumerate t).
Proof.
  intros Hwf. rewrite patrie_enumerate_tokens.
  pose proof (tokens_sorted t Hwf) as Hs.
  induction (tokens t) as [|a l IH]; [constructor|].
  simpl in Hs. inv Hs. constructor; auto.
  rewrite Forall_map in H2. exact H2.
Qed.

Lemma enumerate_In_obs t :
  trie_wf t ->
  forall K q, In (K, q) (patrie_enumerate t) <-> q <> None /\ snd (obs t K) = q.
Proof.
  intros Hwf K q. rewrite patrie_enumerate_tokens, (tokens_In t Hwf).
  rewrite (obs_terminal_payload t K Hwf). split.
  - intros [Hn <-]. auto.
  - intros [Hn <-]. auto.
Qed.

(** X10: the visitor is called with the payloads the map holds: a key
    is passed with a payload exactly when the map has that payload for it,
    and never with NULL. *)
Theorem enumerate_lists_store ops :
  exists t,
    run_ops trie_node_new ops = Some t /\
    (forall K q, In (K, q) (patrie_enumerate t) <->
                 q <> None /\ abs_run ops K = q).
Proof.
  destruct (run_ops_new_abs ops) as (t & E & Hwf & Hs).
  exists t. split; [assumption|]. intros K q.
  rewrite (enumerate_In_obs t Hwf), Hs. reflexivity.
Qed.

(** X11: the enumeration depends on the map only: two sequences of
    operations that lead to the same map (the same inserts in another
    order, say) give the same calls of the visitor, in the same order. *)
Theorem enumerate_order_independent ops1 ops2 t1 t2 :
  run_ops trie_node_new ops1 = Some t1 ->
  run_ops trie_node_new ops2 = Some t2 ->
  (forall K, abs_run ops1 K = abs_run ops2 K) ->
  patrie_enumerate t1 = patrie_enumerate t2.
Proof.
  intros E1 E2 Hsame.
  destruct (run_ops_new_abs ops1) as (u1 & F1 & Hwf1 & Hs1).
  destruct (run_ops_new_abs ops2) as (u2 & F2 & Hwf2 & Hs2).
  rewrite E1 in F1. inv F1. rewrite E2 in F2. inv F2.
  apply (sorted_same_elements token_lt).
  - intros x y. apply lex_lt_asym.
  - apply tokens_token_sorted. assumption.
  - apply tokens_token_sorted. assumption.
  - intros [K q].
    rewrite (enumerate_In_obs u1 Hwf1), (enumerate_In_obs u2 Hwf2), Hs1, Hs2, Hsame.
    reflexivity.
Qed.

Lemma enumerate_order_independent_witness :
  run_ops trie_node_new ops_a_then_ab = Some (trie_of ops_a_then_ab) /\
  run_ops trie_node_new ops_ab_then_a = Some (trie_of ops_ab_then_a) /\
  (forall K, abs_run ops_a_then_ab K = abs_run ops_ab_then_a K) /\
  patrie_enumerate (trie_of ops_a_then_ab) =
  patrie_enumerate (trie_of ops_ab_then_a).
Proof.
  split; [vm_compute; reflexivity|].
  split; [vm_compute; reflexivity|].
  assert (Hsame : forall K, abs_run ops_a_then_ab K = abs_run ops_ab_then_a K).
  { intros K. unfold abs_run, ops_a_then_ab, ops_ab_then_a.
    cbn [fold_left abs_op]. unfold store_set, store_empty.
    destruct (list_eq_dec_Z key_a key_ab) as [E|_]; [discriminate|].
    destruct (list_eq_dec_Z key_ab key_a) as [E|_]; [discriminate|].
    destruct (list_eq_dec_Z K key_ab) as [->|Hab].
    - destruct (list_eq_dec_Z key_ab key_a) as [E|_]; [discriminate|].
      reflexivity.
    - destruct (list_eq_dec_Z K key_a); reflexivity. }
  split; [exact Hsame|].
  apply (enumerate_order_independent ops_a_then_ab ops_ab_then_a);
    [vm_compute; reflexivity | vm_compute; reflexivity | exact Hsame].
Defined.

(** ** Nodes created *)

Lemma fold_left_add_sizes (es : list (Z * TrieNode)) (a0 : Z) :
  fold_left (fun a e => a + trie_size (snd e)) es a0 = a0 + sizes es.
Proof.
  revert a0. induction es as [|e es IH]; intros a0; simpl.
  - unfold sizes. simpl. lia.
  - rewrite IH. unfold sizes. simpl. lia.
Qed.

Lemma trie_size_node t ph cs :
  trie_size (mkTrieNode t ph cs) = 1 + sizes (entries cs).
Proof.
  cbn [trie_size children]. rewrite avl_inorder_fold.
  rewrite (fold_left_add_sizes (entries cs) 0). reflexivity.
Qed.

Lemma sizes_ins_entry k c es :
  assoc k es = None -> sizes (ins_entry k c es) = sizes es + trie_size c.
Proof.
  unfold sizes. induction es as [|[y cy] es IH]; cbn [assoc ins_entry].
  - intros _. simpl. lia.
  - destruct (Z.eqb_spec k y); [discriminate|]. intros Ha.
    destruct (Z.ltb_spec k y); [simpl; lia|].
    destruct (Z.gtb_spec k y); [|lia].
    simpl. rewrite IH by assumption. simpl. lia.
Qed.

Lemma sizes_upd_entry k c old es :
  assoc k es = Some old ->
  sizes (upd_entry k c es) = sizes es - trie_size old + trie_size c.
Proof.
  unfold sizes. induction es as [|[y cy] es IH]; cbn [assoc upd_entry].
  - discriminate.
  - destruct (Z.eqb_spec k y); intros Ha.
    + inv Ha. simpl. lia.
    + simpl. rewrite IH by assumption. simpl. lia.
Qed.

Lemma trie_size_pos n : 1 <= trie_size n.
Proof.
  induction n as [t ph cs IH] using TrieNode_entries_ind.
  rewrite trie_size_node. unfold sizes.
  induction (entries cs) as [|e es IHes]; simpl; [lia|].
  inv IH. specialize (IHes H2). lia.
Qed.

Lemma missing_bounds key : forall n, 0 <= missing n key <= Z.of_nat (List.length key).
Proof.
  induction key as [|ch rest IH]; intros n; cbn [missing].
  - simpl. lia.
  - destruct (avl_find_child (children n) ch) as [|k c h l r]; [lia|].
    specialize (IH c). cbn [List.length]. lia.
Qed.

Lemma missing_new key : missing trie_node_new key = Z.of_nat (List.length key).
Proof. destruct key; reflexivity. Qed.

Lemma patrie_insert_size key sc q m :
  forall root root',
    trie_wf root -> patrie_insert root key sc q m = Some root' ->
    trie_size root' = trie_size root + missing root key.
Proof.
  induction key as [|ch rest IH]; intros root root' Hwf Hi.
  - cbn [patrie_insert] in Hi. inv Hi. cbn [missing].
    destruct (store_phenotype_ok root sc q m Hwf) as (_ & _ & _ & Hcs).
    destruct root as [t ph cs]. destruct (store_phenotype _ _ _ _) as [t' ph' cs'].
    simpl in Hcs. subst cs'. rewrite !trie_size_node. lia.
  - destruct root as [t ph cs]. pose proof Hwf as Hwf0.
    apply trie_forall_node in Hwf. destruct Hwf as [[Hok Htp] Hall].
    simpl in Hok, Htp.
    cbn [patrie_insert missing children] in *. unfold insert_or_get in Hi.
    pose proof (avl_find_child_assoc cs ch (proj1 Hok)) as Hf.
    destruct (avl_find_child cs ch) as [|k cur h l r] eqn:E; simpl in Hf.
    + destruct (avl_insert_child_avl_ok cs ch trie_node_new Hok)
        as (cs' & Ei & Hok' & Ee).
      rewrite Ei in Hi. cbn [bind] in Hi.
      assert (A : assoc ch (entries cs') = Some trie_node_new)
        by (rewrite Ee; apply assoc_ins_entry_same).
      rewrite <- avl_find_child_assoc in A by apply Hok'.
      rewrite A in Hi. cbn [bind] in Hi.
      destruct (patrie_insert trie_node_new rest sc q m) as [cur'|] eqn:Er;
        cbn [bind] in Hi; [|discriminate].
      inv Hi. apply IH in Er; [|apply trie_wf_new].
      rewrite missing_new in Er.
      rewrite !trie_size_node, entries_write_back by apply Hok'.
      rewrite (sizes_upd_entry ch cur' trie_node_new)
        by (rewrite Ee; apply assoc_ins_entry_same).
      rewrite Ee, sizes_ins_entry by (symmetry; assumption).
      change (trie_size trie_node_new) with 1 in *.
      cbn [List.length]. lia.
    + cbn [bind child_of] in Hi.
      destruct (patrie_insert cur rest sc q m) as [cur'|] eqn:Er;
        cbn [bind] in Hi; [|discriminate].
      inv Hi.
      assert (Hwfc : trie_wf cur)
        by (eapply assoc_Forall with (P := trie_wf); eauto).
      apply IH in Er; [|assumption].
      rewrite !trie_size_node, entries_write_back by apply Hok.
      rewrite (sizes_upd_entry ch cur' cur) by (symmetry; assumption).
      lia.
Qed.

Lemma patrie_lookup_size key :
  forall root res root',
    trie_wf root -> patrie_lookup root key = Some (res, root') ->
    trie_size root' = trie_size root.
Proof.
  induction key as [|ch rest IH]; intros [t ph cs] res root' Hwf Hl;
    cbn [patrie_lookup] in Hl.
  - destruct (t =? 0); [inv Hl; reflexivity|].
    destruct ph; cbn [bind] in Hl; inv Hl. rewrite !trie_size_node. reflexivity.
  - pose proof Hwf as Hwf0.
    apply trie_forall_node in Hwf. destruct Hwf as [[Hok Htp] Hall].
    simpl in Hok, Htp.
    pose proof (avl_find_child_assoc cs ch (proj1 Hok)) as Hf.
    destruct (avl_find_child cs ch) as [|k cur h l r] eqn:E; simpl in Hf.
    + inv Hl. reflexivity.
    + destruct (patrie_lookup cur rest) as [[res' cur']|] eqn:Er;
        cbn [bind] in Hl; [|discriminate].
      inv Hl.
      assert (Hwfc : trie_wf cur)
        by (eapply assoc_Forall with (P := trie_wf); eauto).
      apply IH in Er; [|assumption].
      rewrite !trie_size_node, entries_write_back by apply Hok.
      rewrite (sizes_upd_entry ch cur' cur) by (symmetry; assumption).
      lia.
Qed.

Lemma missing_zero key :
  forall t n, node_at t key = Some n -> missing t key = 0.
Proof.
  induction key as [|ch rest IH]; intros t n; cbn [node_at missing]; auto.
  destruct (avl_find_child (children t) ch); [discriminate | eauto].
Qed.

(** X12: [patrie_insert] creates one node for each symbol of the key
    past the longest prefix that already leads to a node, and no other:
    at most as many nodes as the key has symbols, and none when the key is
    stored already. *)
Theorem insert_creates_missing_nodes ops t K sc q m t' :
  run_ops trie_node_new ops = Some t ->
  patrie_insert t K sc q m = Some t' ->
  trie_size t' = trie_size t + missing t K /\
  0 <= missing t K <= Z.of_nat (List.length K) /\
  (fst (obs t K) <> 0 -> trie_size t' = trie_size t).
Proof.
  intros Hrun Hi.
  destruct (run_ops_new_ok ops) as (t0 & E0 & Hwf & _).
  rewrite Hrun in E0. inv E0.
  pose proof (patrie_insert_size K sc q m t0 t' Hwf Hi) as Hs.
  split; [assumption|]. split; [apply missing_bounds|].
  intros Hnz. unfold obs in Hnz.
  destruct (node_at t0 K) as [n|] eqn:En; [|simpl in Hnz; lia].
  rewrite (missing_zero K t0 n En) in Hs. lia.
Qed.

Lemma insert_creates_missing_nodes_witness :
  run_ops trie_node_new ops_ab = Some (trie_of ops_ab) /\
  patrie_insert (trie_of ops_ab) key_a 0.25%float QUAL_ANXIOUS None =
    Some (trie_of (ops_ab ++ [OpInsert key_a 0.25%float QUAL_ANXIOUS None])) /\
  trie_size (trie_of (ops_ab ++ [OpInsert key_a 0.25%float QUAL_ANXIOUS None])) =
    trie_size (trie_of ops_ab) + missing (trie_of ops_ab) key_a /\
  0 <= missing (trie_of ops_ab) key_a <= Z.of_nat (List.length key_a) /\
  (fst (obs (trie_of ops_ab) key_a) <> 0 ->
   trie_size (trie_of (ops_ab ++ [OpInsert key_a 0.25%float QUAL_ANXIOUS None])) =
   trie_size (trie_of ops_ab)).
Proof.
  split; [vm_compute; reflexivity|].
  split; [vm_compute; reflexivity|].
  apply (insert_creates_missing_nodes ops_ab _ key_a 0.25%float QUAL_ANXIOUS None);
    vm_compute; reflexivity.
Defined.

Lemma run_ops_size ops :
  forall t, trie_wf t ->
  exists t',
    run_ops t ops = Some t' /\ trie_wf t' /\
    trie_size t <= trie_size t' <= trie_size t + total_length (inserted_keys ops).
Proof.
  induction ops as [|o ops IH]; intros t Hwf.
  - exists t. split; [reflexivity|]. split; [assumption|]. simpl. lia.
  - assert (Step : exists t1,
      run_op t o = Some t1 /\ trie_wf t1 /\
      trie_size t <= trie_size t1 <=
        trie_size t + total_length (inserted_keys [o])).
    { destruct o as [key sc q m|key|]; cbn [run_op].
      - destruct (patrie_insert_ok key sc q m t Hwf) as (t1 & Ei & Hwf1 & _).
        pose proof (patrie_insert_size key sc q m t t1 Hwf Ei) as Hs.
        pose proof (missing_bounds key t).
        rewrite Ei. exists t1. split; [reflexivity|]. split; [assumption|].
        simpl. lia.
      - destruct (patrie_lookup t key) as [[res t1]|] eqn:El.
        + pose proof (patrie_lookup_size key t res t1 Hwf El) as Hs.
          cbn [bind]. exists t1. split; [reflexivity|].
          split; [|simpl; lia].
          destruct (patrie_lookup_ok key t Hwf)
            as [[_ E]|[_ (old & t2 & _ & E & Hwf2 & _)]];
            rewrite El in E; inv E; assumption.
        + destruct (lookup_result_obs t key Hwf) as (x & E).
          rewrite El in E. discriminate.
      - exists t. split; [reflexivity|]. split; [assumption|]. simpl. lia. }
    destruct Step as (t1 & E1 & Hwf1 & Hs1).
    destruct (IH t1 Hwf1) as (t2 & E2 & Hwf2 & Hs2).
    exists t2. cbn [run_ops]. rewrite E1. cbn [bind].
    split; [assumption|]. split; [assumption|].
    rewrite (inserted_keys_cons o ops).
    unfold total_length in *. rewrite fold_right_app.
    assert (G : forall (a : list (list Z)) b,
      fold_right (fun k x => Z.of_nat (List.length k) + x) b a =
      fold_right (fun k x => Z.of_nat (List.length k) + x) 0 a + b).
    { clear. induction a as [|k a IHa]; intros b; simpl; [lia|].
      rewrite IHa. lia. }
    rewrite G. lia.
Qed.

(** X13: the trie grows with the inserts only, and by no more than the
    symbols inserted: after any sequence of operations from the empty trie
    it has at most one node more than the total length of the keys
    inserted. *)
Theorem trie_size_bounded ops :
  exists t,
    run_ops trie_node_new ops = Some t /\
    1 <= trie_size t <= 1 + total_length (inserted_keys ops).
Proof.
  destruct (run_ops_size ops _ trie_wf_new) as (t & E & _ & Hs).
  exists t. split; [assumption|].
  change (trie_size trie_node_new) with 1 in Hs. exact Hs.
Qed.

Lemma enumerate_keys_In t K :
  trie_wf t -> (In K (map fst (patrie_enumerate t)) <-> fst (obs t K) <> 0).
Proof.
  intros Hwf. rewrite patrie_enumerate_tokens, in_map_iff. split.
  - intros ([k q] & <- & Hin). apply (tokens_In t Hwf) in Hin. apply Hin.
  - intros Hnz. exists (K, snd (obs t K)). split; [reflexivity|].
    apply (tokens_In t Hwf). auto.
Qed.

(** X14: a lookup changes nothing but the visits counter of the key it
    finds: the payload returned has the score, flags and meta that were
    stored; no other key is touched, no node is created, and the keys the
    enumeration passes are the same. *)
Theorem lookup_changes_visits_only ops t K res t' :
  run_ops trie_node_new ops = Some t ->
  patrie_lookup t K = Some (res, t') ->
  (forall ph, res = Some ph ->
     exists old,
       snd (obs t K) = Some old /\
       score ph = score old /\ qual ph = qual old /\ meta ph = meta old /\
       visits ph = (visits old + 1) mod 2 ^ 64) /\
  obs t' K = (fst (obs t K), res) /\
  (forall K', K' <> K -> obs t' K' = obs t K') /\
  trie_size t' = trie_size t /\
  map fst (patrie_enumerate t') = map fst (patrie_enumerate t).
Proof.
  intros Hrun Hl.
  destruct (run_ops_new_ok ops) as (t0 & E0 & Hwf & _).
  rewrite Hrun in E0. inv E0.
  pose proof (patrie_lookup_size K t0 res t' Hwf Hl) as Hsize.
  assert (H : trie_wf t' /\
              (forall ph, res = Some ph ->
                 exists old, snd (obs t0 K) = Some old /\ ph = visit old) /\
              obs t' K = (fst (obs t0 K), res) /\
              (forall K', K' <> K -> obs t' K' = obs t0 K')).
  { destruct (patrie_lookup_ok K t0 Hwf)
      as [[Hz E]|[_ (old & t1 & Ho & E & Hwf1 & Ho1 & Hfr)]];
      rewrite Hl in E; inv E.
    - splits; auto.
      + intros ph Hph. discriminate.
      + rewrite (obs_absent _ K Hwf Hz). reflexivity.
    - splits; auto. intros ph Hph. inv Hph. eauto. }
  destruct H as (Hwf' & Hres & Hk & Hfr). splits; auto.
  - intros ph Hph. destruct (Hres ph Hph) as (old & Ho & ->).
    exists old. splits; auto.
  - apply (sorted_same_elements lex_lt).
    + intros x y. apply lex_lt_asym.
    + rewrite patrie_enumerate_tokens. apply tokens_sorted. assumption.
    + rewrite patrie_enumerate_tokens. apply tokens_sorted. assumption.
    + intros K'. rewrite !enumerate_keys_In by assumption.
      destruct (list_eq_dec_Z K' K) as [->|Hne].
      * rewrite Hk. reflexivity.
      * rewrite Hfr by assumption. reflexivity.
Qed.

Lemma lookup_changes_visits_only_witness :
  run_ops trie_node_new ops_ab = Some (trie_of ops_ab) /\
  patrie_lookup (trie_of ops_ab) key_ab =
    Some (Some (mkPhenotype 0.5%float 1 QUAL_CREATIVE (Some "two"%string)),
          trie_of (ops_ab ++ [OpLookup key_ab])) /\
  (forall ph,
     Some (mkPhenotype 0.5%float 1 QUAL_CREATIVE (Some "two"%string)) = Some ph ->
     exists old,
       snd (obs (trie_of ops_ab) key_ab) = Some old /\
       score ph = score old /\ qual ph = qual old /\ meta ph = meta old /\
       visits ph = (visits old + 1) mod 2 ^ 64) /\
  obs (trie_of (ops_ab ++ [OpLookup key_ab])) key_ab =
    (fst (obs (trie_of ops_ab) key_ab),
     Some (mkPhenotype 0.5%float 1 QUAL_CREATIVE (Some "two"%string))) /\
  (forall K', K' <> key_ab ->
     obs (trie_of (ops_ab ++ [OpLookup key_ab])) K' = obs (trie_of ops_ab) K') /\
  trie_size (trie_of (ops_ab ++ [OpLookup key_ab])) = trie_size (trie_of ops_ab) /\
  map fst (patrie_enumerate (trie_of (ops_ab ++ [OpLookup key_ab]))) =
  map fst (patrie_enumerate (trie_of ops_ab)).
Proof.
  split; [vm_compute; reflexivity|].
  split; [vm_compute; reflexivity|].
  apply (lookup_changes_visits_only ops_ab _ key_ab);
    vm_compute; reflexivity.
Defined.

(** ** The enumeration buffer *)

Lemma grow_loop_enough need :
  0 <= need < 2 ^ 63 ->
  forall f nc,
    0 < nc < 2 ^ 64 -> need < nc * 2 ^ Z.of_nat f ->
    exists k,
      0 <= k /\ grow_loop (S f) nc need = Some (nc * 2 ^ k) /\
      need < nc * 2 ^ k < 2 ^ 64 /\
      (k = 0 \/ nc * 2 ^ (k - 1) <= need).
Proof.
  intros Hneed. induction f as [|f IH]; intros nc Hnc Hf.
  - cbn [grow_loop]. simpl in Hf.
    destruct (Z.leb_spec nc need); [lia|].
    exists 0. rewrite Z.mul_1_r. split; [lia|]. split; [reflexivity|].
    split; [lia|]. left. reflexivity.
  - cbn [grow_loop]. fold (grow_loop (S f)).
    destruct (Z.leb_spec nc need) as [Hle|Hgt].
    + assert (E : (nc * 2) mod 2 ^ 64 = nc * 2) by (apply Z.mod_small; lia).
      rewrite E.
      destruct (IH (nc * 2)) as (k & Hk & Eg & Hb & Hprev).
      * lia.
      * rewrite Nat2Z.inj_succ, Z.pow_succ_r in Hf by lia. lia.
      * exists (k + 1).
        assert (Ep : nc * 2 ^ (k + 1) = nc * 2 * 2 ^ k)
          by (rewrite Z.pow_add_r by lia; change (2 ^ 1) with 2; lia).
        rewrite Ep. split; [lia|]. split; [assumption|]. split; [assumption|].
        right. replace (k + 1 - 1) with k by lia.
        destruct (Z.eq_dec k 0) as [->|Hk0]; [lia|].
        destruct Hprev as [->|Hp]; [lia|].
        replace k with (k - 1 + 1) at 1 by lia.
        rewrite Z.pow_add_r by lia. change (2 ^ 1) with 2. lia.
    + exists 0. rewrite Z.mul_1_r. split; [lia|]. split; [reflexivity|].
      split; [lia|]. left. reflexivity.
Qed.

Lemma ensure_buf_some cap need :
  0 <= cap < 2 ^ 64 -> 0 <= need < 2 ^ 63 ->
  exists cap', ensure_buf cap need = Some cap'.
Proof.
  intros Hcap Hneed. unfold ensure_buf.
  destruct (Z.leb_spec cap need) as [Hle|Hgt]; [|eauto].
  assert (Hnc : 0 < (if cap =? 0 then 64 else (cap * 2) mod 2 ^ 64) < 2 ^ 64).
  { destruct (Z.eqb_spec cap 0); [lia|]. rewrite Z.mod_small; lia. }
  destruct (grow_loop_enough need Hneed 63 _ Hnc) as (k & _ & Eg & _).
  - change (2 ^ Z.of_nat 63) with (2 ^ 63). nia.
  - eauto.
Qed.

(** X15: [ensure_buf] with [need] below 2^63 returns, with a capacity
    above [need]: there is room at index [need], and when the call is
    [ensure_buf(ec, ec->len + 1)] at index [len] too.  The capacity never
    shrinks; it stays when it was enough, and otherwise it becomes 64 or
    twice the old capacity, doubled further until it exceeds [need], so
    never more than [max 64 (2 * need)]. *)
Theorem ensure_buf_enough cap need :
  0 <= cap < 2 ^ 64 -> 0 <= need < 2 ^ 63 ->
  exists cap',
    ensure_buf cap need = Some cap' /\
    need < cap' < 2 ^ 64 /\
    cap <= cap' /\
    (need < cap -> cap' = cap) /\
    (cap <= need ->
     (exists k, 0 <= k /\ cap' = (if cap =? 0 then 64 else cap * 2) * 2 ^ k) /\
     cap' <= Z.max 64 (2 * need)).
Proof.
  intros Hcap Hneed. unfold ensure_buf.
  destruct (Z.leb_spec cap need) as [Hle|Hgt].
  - set (nc := if cap =? 0 then 64 else cap * 2).
    assert (Enc : (if cap =? 0 then 64 else (cap * 2) mod 2 ^ 64) = nc).
    { subst nc. destruct (cap =? 0); [reflexivity|]. apply Z.mod_small. lia. }
    rewrite Enc.
    assert (Hnc : 0 < nc < 2 ^ 64 /\ 2 * cap <= nc /\ nc <= Z.max 64 (2 * need)).
    { subst nc. destruct (Z.eqb_spec cap 0); lia. }
    destruct (grow_loop_enough need Hneed 63 nc) as (k & Hk & Eg & Hb & Hprev).
    + lia.
    + change (2 ^ Z.of_nat 63) with (2 ^ 63). nia.
    + exists (nc * 2 ^ k). split; [assumption|]. split; [assumption|].
      assert (Hp : 1 <= 2 ^ k) by (pose proof (Z.pow_pos_nonneg 2 k); lia).
      split; [nia|]. split; [lia|]. intros _. split; [eauto|].
      destruct (Z.eq_dec k 0) as [->|Hk0]; [rewrite Z.mul_1_r; lia|].
      destruct Hprev as [->|Hp']; [lia|].
      replace k with (k - 1 + 1) by lia.
      rewrite Z.pow_add_r by lia. change (2 ^ 1) with 2. lia.
  - exists cap. split; [reflexivity|]. split; [lia|]. split; [lia|].
    split; [reflexivity|]. lia.
Qed.

Lemma ensure_buf_enough_witness :
  0 <= 0 < 2 ^ 64 /\ 0 <= 100 < 2 ^ 63 /\
  exists cap',
    ensure_buf 0 100 = Some cap' /\
    100 < cap' < 2 ^ 64 /\
    0 <= cap' /\
    (100 < 0 -> cap' = 0) /\
    (0 <= 100 ->
     (exists k, 0 <= k /\ cap' = (if 0 =? 0 then 64 else 0 * 2) * 2 ^ k) /\
     cap' <= Z.max 64 (2 * 100)).
Proof.
  assert (H1 : 0 <= 0 < 2 ^ 64) by (split; [reflexivity | reflexivity]).
  assert (H2 : 0 <= 100 < 2 ^ 63) by (split; [discriminate | reflexivity]).
  split; [exact H1|]. split; [exact H2|].
  apply (ensure_buf_enough 0 100 H1 H2).
Defined.

Lemma doubled_mod nc j :
  ((nc * 2) mod 2 ^ 64 * 2 ^ Z.of_nat j) mod 2 ^ 64 =
  (nc * 2 ^ Z.of_nat (S j)) mod 2 ^ 64.
Proof.
  rewrite Z.mul_mod_idemp_l by lia.
  rewrite Nat2Z.inj_succ, Z.pow_succ_r by lia. f_equal. lia.
Qed.

Lemma grow_loop_None_tests need :
  forall fuel nc,
    0 <= nc < 2 ^ 64 -> grow_loop fuel nc need = None ->
    forall j, (j < fuel)%nat -> (nc * 2 ^ Z.of_nat j) mod 2 ^ 64 <= need.
Proof.
  induction fuel as [|f IH]; intros nc Hnc H j Hj; [lia|].
  cbn [grow_loop] in H.
  destruct (Z.leb_spec nc need) as [Hle|Hgt]; [|discriminate].
  destruct j as [|j].
  - change (2 ^ Z.of_nat 0) with 1. rewrite Z.mul_1_r, Z.mod_small; lia.
  - rewrite <- doubled_mod. apply IH; [|assumption|lia].
    apply Z.mod_pos_bound. lia.
Qed.

Lemma grow_loop_stuck need :
  forall fuel nc,
    0 <= nc < 2 ^ 64 ->
    (forall j, (j < fuel)%nat -> (nc * 2 ^ Z.of_nat j) mod 2 ^ 64 <= need) ->
    grow_loop fuel nc need = None.
Proof.
  induction fuel as [|f IH]; intros nc Hnc H; [reflexivity|].
  cbn [grow_loop].
  destruct (Z.leb_spec nc need) as [Hle|Hgt].
  - apply IH; [apply Z.mod_pos_bound; lia|].
    intros j Hj. rewrite doubled_mod. apply H. lia.
  - specialize (H 0%nat ltac:(lia)).
    change (2 ^ Z.of_nat 0) with 1 in H.
    rewrite Z.mul_1_r, Z.mod_small in H; lia.
Qed.

(** X16: [ensure_buf] fails to return only when [need] is 2^63 or more,
    and then the loop does not end however long it runs: the doubled
    capacity has wrapped around to 0 and stays below [need]. *)
Theorem ensure_buf_never_returns cap need :
  0 <= cap < 2 ^ 64 -> 0 <= need < 2 ^ 64 ->
  ensure_buf cap need = None ->
  2 ^ 63 <= need /\
  forall fuel,
    grow_loop fuel (if cap =? 0 then 64 else (cap * 2) mod 2 ^ 64) need = None.
Proof.
  intros Hcap Hneed H. split.
  - destruct (Z.lt_ge_cases need (2 ^ 63)) as [Hlt|]; [|assumption].
    destruct (ensure_buf_some cap need Hcap) as (cap' & E); [lia|].
    rewrite H in E. discriminate.
  - unfold ensure_buf in H.
    destruct (Z.leb_spec cap need); [|discriminate].
    set (nc := if cap =? 0 then 64 else (cap * 2) mod 2 ^ 64) in *.
    assert (Hnc : 0 <= nc < 2 ^ 64).
    { subst nc. destruct (cap =? 0); [lia|]. apply Z.mod_pos_bound. lia. }
    pose proof (grow_loop_None_tests need 64 nc Hnc H) as Ht.
    intros fuel. apply grow_loop_stuck; [assumption|].
    intros j _. destruct (Nat.lt_ge_cases j 64) as [Hj|Hj]; [auto|].
    replace (Z.of_nat j) with (Z.of_nat (j - 64) + 64) by lia.
    rewrite Z.pow_add_r, Z.mul_assoc, Z.mod_mul by lia. lia.
Qed.

Lemma ensure_buf_never_returns_witness :
  0 <= 0 < 2 ^ 64 /\ 0 <= 2 ^ 63 < 2 ^ 64 /\
  ensure_buf 0 (2 ^ 63) = None /\
  2 ^ 63 <= 2 ^ 63 /\
  forall fuel,
    grow_loop fuel (if 0 =? 0 then 64 else (0 * 2) mod 2 ^ 64) (2 ^ 63) = None.
Proof.
  assert (H1 : 0 <= 0 < 2 ^ 64) by (split; [reflexivity | reflexivity]).
  assert (H2 : 0 <= 2 ^ 63 < 2 ^ 64) by (split; [discriminate | reflexivity]).
  assert (H3 : ensure_buf 0 (2 ^ 63) = None) by (vm_compute; reflexivity).
  split; [exact H1|]. split; [exact H2|]. split; [exact H3|].
  apply (ensure_buf_never_returns 0 (2 ^ 63) H1 H2 H3).
Defined.

(** ** Release *)

Lemma released_app f a b : released f (a ++ b) = released f a + released f b.
Proof. unfold released. rewrite filter_app, length_app. lia. Qed.

Lemma released_one f x : released f [x] = if f x then 1 else 0.
Proof. unfold released. simpl. destruct (f x); reflexivity. Qed.

Lemma released_none f : released f [] = 0.
Proof. reflexivity. Qed.

Lemma released_avl_free {T : Type} f (b : bool) (t : AVLChild T) :
  (forall k, f (RAVLChild k) = b) ->
  forall tr,
    released f (avl_free t tr) =
    released f tr + (if b then avl_size t else 0).
Proof.
  intros Hf. induction t as [|k c h l IHl r IHr]; intros tr; cbn [avl_free].
  - destruct b; unfold avl_size; simpl; lia.
  - rewrite released_app, IHr, IHl, avl_size_node, released_one, Hf.
    destruct b; lia.
Qed.

Lemma released_phenotype_free f ph tr :
  (forall txt, f (RMeta txt) = false) ->
  released f (phenotype_free ph tr) =
  released f tr +
  match ph with Some _ => (if f RPhenotype then 1 else 0) | None => 0 end.
Proof.
  intros Hm. destruct ph as [x|]; cbn [phenotype_free]; [|lia].
  rewrite !released_app, released_one.
  destruct (meta x); rewrite ?released_one, ?released_none, ?Hm;
    destruct (f RPhenotype); lia.
Qed.

Lemma released_fold f (g : TrieNode -> Z) (es : list (Z * TrieNode)) :
  Forall (fun e => forall k tr,
            released f (visit_free_fn k (snd e) tr) = released f tr + g (snd e))
         es ->
  forall tr,
    released f (fold_left (fun a e => visit_free_fn (fst e) (snd e) a) es tr) =
    released f tr + fold_right Z.add 0 (map (fun e => g (snd e)) es).
Proof.
  induction 1 as [|e es He HF IH]; intros tr; simpl; [lia|].
  rewrite IH, He. lia.
Qed.

Lemma trie_free_visit n tr : trie_free n tr = visit_free_fn 0 n tr.
Proof. destruct n. reflexivity. Qed.

Lemma visit_free_fn_node k t ph cs tr :
  visit_free_fn k (mkTrieNode t ph cs) tr =
  phenotype_free ph
    (avl_free cs
       (fold_left (fun a e => visit_free_fn (fst e) (snd e) a) (entries cs) tr))
  ++ [RTrieNode].
Proof.
  cbn [visit_free_fn children p]. rewrite avl_inorder_fold.
  destruct ph; reflexivity.
Qed.

Lemma released_nodes n :
  forall k tr,
    released is_node (visit_free_fn k n tr) = released is_node tr + trie_size n.
Proof.
  induction n as [t ph cs IH] using TrieNode_entries_ind. intros k tr.
  rewrite visit_free_fn_node, released_app, released_phenotype_free by reflexivity.
  rewrite (released_avl_free is_node false) by reflexivity.
  rewrite (released_fold is_node trie_size _ IH), trie_size_node, released_one.
  unfold sizes. destruct ph; simpl; lia.
Qed.

Lemma released_entries n :
  forall k tr,
    released is_entry (visit_free_fn k n tr) =
    released is_entry tr + (trie_size n - 1).
Proof.
  induction n as [t ph cs IH] using TrieNode_entries_ind. intros k tr.
  rewrite visit_free_fn_node, released_app, released_phenotype_free by reflexivity.
  rewrite (released_avl_free is_entry true) by reflexivity.
  rewrite (released_fold is_entry (fun c => trie_size c - 1) _ IH), trie_size_node.
  rewrite released_one. unfold sizes, avl_size.
  assert (G : fold_right Z.add 0 (map (fun e => trie_size (snd e) - 1) (entries cs))
              + Z.of_nat (List.length (entries cs)) =
              fold_right Z.add 0 (map (fun e => trie_size (snd e)) (entries cs))).
  { induction (entries cs) as [|e es IHes]; simpl; [reflexivity|].
    inv IH. specialize (IHes H2). lia. }
  destruct ph; simpl; lia.
Qed.

Lemma released_payloads n :
  trie_wf n ->
  forall k tr,
    released is_payload (visit_free_fn k n tr) =
    released is_payload tr + Z.of_nat (List.length (tokens n)).
Proof.
  induction n as [t ph cs IH] using TrieNode_entries_ind. intros Hwf k tr.
  apply trie_forall_node in Hwf. destruct Hwf as [[_ Htp] Hall]. simpl in Htp.
  rewrite visit_free_fn_node, released_app, released_phenotype_free by reflexivity.
  rewrite (released_avl_free is_payload false) by reflexivity.
  rewrite (released_fold is_payload (fun c => Z.of_nat (List.length (tokens c)))).
  2:{ rewrite Forall_forall in *. intros e He. apply IH; [assumption|].
      apply Hall. assumption. }
  rewrite tokens_node, length_app.
  assert (G : Z.of_nat (List.length (flat_map below (entries cs))) =
              fold_right Z.add 0
                (map (fun e => Z.of_nat (List.length (tokens (snd e)))) (entries cs))).
  { clear. induction (entries cs) as [|e es IHes]; simpl; [reflexivity|].
    rewrite length_app, Nat2Z.inj_add, IHes. unfold below.
    rewrite length_map. reflexivity. }
  rewrite Nat2Z.inj_add, G, released_one. simpl.
  destruct (Z.eqb_spec t 0) as [->|Ht].
  - destruct ph as [x|]; [|simpl; lia].
    exfalso. apply (proj2 Htp); [discriminate | reflexivity].
  - destruct ph as [x|]; [simpl; lia|].
    exfalso. apply (proj1 Htp Ht). reflexivity.
Qed.


(** ** The step of the walk on a new symbol *)

Lemma ins_entry_length {T : Type} (k : Z) (c : T) (es : list (Z * T)) :
  assoc k es = None ->
  List.length (ins_entry k c es) = S (List.length es).
Proof.
  induction es as [|[y cy] es IH]; cbn [assoc ins_entry]; [reflexivity|].
  destruct (Z.eqb_spec k y); [discriminate|]. intros Ha.
  destruct (Z.ltb_spec k y); [reflexivity|].
  destruct (Z.gtb_spec k y); [|lia].
  simpl. rewrite IH by assumption. reflexivity.
Qed.

(** X18: when the symbol is not in the child set, the find-or-insert step
    of [patrie_insert] returns the entry of a new, empty node under that
    symbol, in a child set that is well formed again, has that one entry
    more, and leads to the same child as before for every other symbol. *)
Theorem insert_or_get_absent (cs : AVLChild TrieNode) (ch : Z) :
  avl_ok cs -> ~ In ch (keys cs) ->
  exists cs' h l r,
    insert_or_get cs ch = Some (cs', ANode ch trie_node_new h l r) /\
    avl_find_child cs' ch = ANode ch trie_node_new h l r /\
    avl_ok cs' /\
    avl_size cs' = avl_size cs + 1 /\
    (forall x, In x (keys cs') <-> x = ch \/ In x (keys cs)) /\
    (forall x, x <> ch ->
       child_of (avl_find_child cs' x) = child_of (avl_find_child cs x)).
Proof.
  intros Hok Hnot.
  assert (Ha : assoc ch (entries cs) = None) by (apply assoc_None; exact Hnot).
  pose proof (avl_find_child_assoc cs ch (proj1 Hok)) as Hf.
  rewrite Ha in Hf. unfold insert_or_get.
  destruct (avl_find_child cs ch) as [|k0 c0 h0 l0 r0]; [|discriminate].
  destruct (avl_insert_child_avl_ok cs ch trie_node_new Hok)
    as (cs' & -> & Hok' & Ee).
  cbn [bind].
  pose proof (avl_find_child_assoc cs' ch (proj1 Hok')) as Hf'.
  rewrite Ee, assoc_ins_entry_same in Hf'.
  pose proof (avl_find_child_key cs' ch) as Hk.
  destruct (avl_find_child cs' ch) as [|k c h l r] eqn:Efind; [discriminate|].
  simpl in Hf'. inv Hf'.
  exists cs', h, l, r. splits; auto.
  - unfold avl_size. rewrite Ee, ins_entry_length by assumption. lia.
  - intros x. unfold keys. rewrite Ee. apply ins_entry_keys.
  - intros x Hx. rewrite !avl_find_child_assoc, Ee by (apply Hok' || apply Hok).
    apply assoc_ins_entry_other. assumption.
Qed.

Lemma insert_or_get_absent_witness :
  avl_ok abc_children /\ ~ In 100 (keys abc_children) /\
  exists cs' h l r,
    insert_or_get abc_children 100 = Some (cs', ANode 100 trie_node_new h l r) /\
    avl_find_child cs' 100 = ANode 100 trie_node_new h l r /\
    avl_ok cs' /\
    avl_size cs' = avl_size abc_children + 1 /\
    (forall x, In x (keys cs') <-> x = 100 \/ In x (keys abc_children)) /\
    (forall x, x <> 100 ->
       child_of (avl_find_child cs' x) =
       child_of (avl_find_child abc_children x)).
Proof.
  assert (Hok : avl_ok abc_children).
  { split; [|split].
    - unfold bst, sorted_keys. simpl. repeat constructor.
    - simpl. repeat split; reflexivity.
    - simpl. repeat split; lia. }
  assert (Hnot : ~ In 100 (keys abc_children))
    by (simpl; intros [H|[H|[H|[]]]]; discriminate).
  split; [exact Hok|]. split; [exact Hnot|].
  apply (insert_or_get_absent abc_children 100 Hok Hnot).
Defined.
